(** * Variational Bayes for LDA ([src/lda/vb.py]): model and properties

    The class [VariationalBayes] is embedded as explicit state passing over a
    record of its fields.  numpy arrays of shape [(1, K)] are lists of reals,
    matrices are lists of rows, and an element-wise operation pairs the
    entries of two arrays of one shape.

    Floating-point numbers are read as exact real numbers: rounding, overflow
    and the underflow of [numpy.exp] to [0.0] are outside the model.  The
    division and logarithm of the reals are total ([x / 0] and [ln 0] are
    some real), where numpy answers with an infinity or with not-a-number.
    A property that speaks of values computed by a division or a logarithm
    therefore carries the hypothesis that the divisors met are not zero
    ([divisors_nonzero], [newton_finite] for the Newton steps of
    [update_alpha]; positive column sums for the M-step); the one division by
    a literal [0.0], in [learning], is modelled with numpy's own answer
    ([npfloat]).

    The special functions that the code takes from scipy ([psi], [polygamma],
    [gammaln]) are parameters of the development; where a property needs a
    value of one of them it says so in a hypothesis.  The outcomes of
    [numpy.random.random] are arguments of [_initialize].

    Python exceptions (IndexError, AssertionError, ZeroDivisionError, the read
    of a local that was never assigned) are the [None] of an option.  Console
    output is not modelled, except for the likelihoods that [learning] prints,
    which it returns. *)

From Stdlib Require Import Reals Lra Lia List.
From stdpp Require Import base option list.
Import ListNotations.

Open Scope R_scope.

(** ** Vectors and matrices *)

Abbreviation vec := (list R).
Abbreviation matrix := (list (list R)).

(** [numpy.sum] of a one-dimensional array. *)
Definition vsum (v : vec) : R := fold_right Rplus 0 v.

(** Element-wise operation on two arrays of the same shape. *)
Definition vmap2 (f : R -> R -> R) (u v : vec) : vec :=
  map (fun p => f (fst p) (snd p)) (combine u v).

Definition vadd : vec -> vec -> vec := vmap2 Rplus.
Definition vsub : vec -> vec -> vec := vmap2 Rminus.
Definition vdiv : vec -> vec -> vec := vmap2 Rdiv.

(** [numpy.mean(abs(v))]. *)
Definition mean_abs (v : vec) : R := vsum (map Rabs v) / INR (length v).

Definition Rleb (x y : R) : bool := if Rle_dec x y then true else false.
Definition Rgeb (x y : R) : bool := if Rge_dec x y then true else false.
Definition Rltb (x y : R) : bool := if Rlt_dec x y then true else false.

(** [numpy.any(u >= v)]. *)
Definition any_ge (u v : vec) : bool :=
  existsb (fun p => Rgeb (fst p) (snd p)) (combine u v).

(** ** Constructor parameters ([__init__]) *)

Record config := {
  alpha_update_decay_factor : R;
  alpha_maximum_decay : nat;
  gamma_converge_threshold : R;
  gamma_maximum_iteration : nat;
  alpha_converge_threshold : R;
  alpha_maximum_iteration : nat;
  converge_threshold : R;
  maximum_iteration : nat
}.

Definition default_config : config := {|
  alpha_update_decay_factor := 9 / 10;
  alpha_maximum_decay := 10;
  gamma_converge_threshold := 1 / 1000000;
  gamma_maximum_iteration := 100;
  alpha_converge_threshold := 1 / 1000000;
  alpha_maximum_iteration := 100;
  converge_threshold := 1 / 100000;
  maximum_iteration := 100
|}.

(** ** Corpus and model state *)

(** A document is a FreqDist: the occurring term ids with their counts (each
    term that occurs is counted at least once), in the order [keys()] and
    [values()] list them. *)
Definition freqdist := list (nat * positive).

(** [self._data]: the documents by id, in the order [keys()] lists them. *)
Definition corpus := list (nat * freqdist).

(** [self._data[doc]]. *)
Fixpoint data_get (data : corpus) (doc : nat) : option freqdist :=
  match data with
  | [] => None
  | (d, fd) :: rest => if Nat.eqb d doc then Some fd else data_get rest doc
  end.

Definition term_ids (fd : freqdist) : list nat := map fst fd.
Definition term_counts (fd : freqdist) : vec :=
  map (fun p => INR (Pos.to_nat (snd p))) fd.

(** [FreqDist.N()]: the total number of tokens. *)
Definition freq_N (fd : freqdist) : nat :=
  fold_right Nat.add 0%nat (map (fun p => Pos.to_nat (snd p)) fd).

Record model := {
  _K : nat;
  _D : nat;
  _V : nat;
  _data : corpus;
  _alpha : vec;
  _gamma : matrix;
  _beta : matrix;
  _phi_table : matrix
}.

Definition set_alpha (st : model) (a : vec) : model :=
  {| _K := _K st; _D := _D st; _V := _V st; _data := _data st; _alpha := a;
     _gamma := _gamma st; _beta := _beta st; _phi_table := _phi_table st |}.

Definition set_gamma (st : model) (g : matrix) : model :=
  {| _K := _K st; _D := _D st; _V := _V st; _data := _data st; _alpha := _alpha st;
     _gamma := g; _beta := _beta st; _phi_table := _phi_table st |}.

Definition set_beta (st : model) (b : matrix) : model :=
  {| _K := _K st; _D := _D st; _V := _V st; _data := _data st; _alpha := _alpha st;
     _gamma := _gamma st; _beta := b; _phi_table := _phi_table st |}.

Definition set_phi_table (st : model) (t : matrix) : model :=
  {| _K := _K st; _D := _D st; _V := _V st; _data := _data st; _alpha := _alpha st;
     _gamma := _gamma st; _beta := _beta st; _phi_table := t |}.

(** [numpy.sum(m, axis=0)] of a matrix with [k] columns. *)
Definition colsum (k : nat) (m : matrix) : vec := fold_right vadd (repeat 0 k) m.

(** [m[ids, :]]: the rows at the given indices; an index past the last row
    raises IndexError. *)
Definition rows_at (m : matrix) (ids : list nat) : option matrix :=
  mapM (fun t => m !! t) ids.

(** [m[numpy.array(keys), :]]: [numpy.array] of no key is an array of floats,
    and an array of floats used as an index raises IndexError. *)
Definition rows_at_array (m : matrix) (keys : list nat) : option matrix :=
  match keys with
  | [] => None
  | _ :: _ => rows_at m keys
  end.

(** ** Non-finite quotients

    The one division of the code whose divisor is a literal zero is modelled
    with numpy's result for it: a float divided by [0.0] is an infinity of the
    sign of the dividend, and [0.0 / 0.0] is not a number. *)
Inductive npfloat := Fin (r : R) | PosInf | NegInf | NaN.

Definition np_divide (x y : R) : npfloat :=
  if Req_dec_T y 0 then
    if Rlt_dec 0 x then PosInf else if Rlt_dec x 0 then NegInf else NaN
  else Fin (x / y).

Definition np_abs (f : npfloat) : npfloat :=
  match f with
  | Fin r => Fin (Rabs r)
  | PosInf | NegInf => PosInf
  | NaN => NaN
  end.

(** [f < t] for a finite [t]; every comparison with NaN is false. *)
Definition np_lt (f : npfloat) (t : R) : bool :=
  match f with
  | Fin r => Rltb r t
  | NegInf => true
  | PosInf | NaN => false
  end.

Definition np_finite (f : npfloat) : bool :=
  match f with Fin _ => true | _ => false end.

Section VB.

(** scipy.special.psi, scipy.special.polygamma and scipy.special.gammaln. *)
Variable psi : R -> R.
Variable polygamma : nat -> R -> R.
Variable gammaln : R -> R.

Variable cfg : config.

(** ** [update_alpha] *)

Section Newton.

(** [self._D] as a float, and the sufficient statistics. *)
Variable Dn : R.
Variable ss : vec.

(** Lines 167-169. *)
Definition alpha_gradient (alpha : vec) : vec :=
  vadd (map (fun a => Dn * (psi (vsum alpha) - psi a)) alpha) ss.

Definition alpha_hessian (alpha : vec) : vec :=
  map (fun a => - Dn * polygamma 1 a) alpha.

(** Lines 174-178.  [sum_1_h] is an array (no [numpy.sum] is applied to it), so
    [c] is an array too.  The quotients are those of the reals; numpy's
    differ when a divisor is zero ([divisors_nonzero] below excludes it). *)
Definition sum_g_h (alpha : vec) : R :=
  vsum (vdiv (alpha_gradient alpha) (alpha_hessian alpha)).

Definition sum_1_h (alpha : vec) : vec :=
  map (fun h => 1 / h) (alpha_hessian alpha).

Definition newton_z (alpha : vec) : R := Dn * polygamma 1 (vsum alpha).

Definition newton_c (alpha : vec) : vec :=
  map (fun s => sum_g_h alpha / (1 / newton_z alpha + s)) (sum_1_h alpha).

(** Line 184. *)
Definition step_size (alpha : vec) (decay : nat) : vec :=
  vdiv (map (fun x => alpha_update_decay_factor cfg ^ decay * x)
            (vsub (alpha_gradient alpha) (newton_c alpha)))
       (alpha_hessian alpha).

(** The [while True] loop of lines 181-197, from the current [decay]; it
    returns the new [alpha_update] and [decay].  The loop leaves after at most
    [alpha_maximum_decay + 1 - decay] rounds, which bounds [fuel]. *)
Fixpoint line_search_fuel (fuel : nat) (alpha alpha_update : vec) (decay : nat)
  : vec * nat :=
  if any_ge alpha (step_size alpha decay) then
    (* singular_hessian = True *)
    if (alpha_maximum_decay cfg <? S decay)%nat then (alpha_update, S decay)
    else match fuel with
         | O => (alpha_update, S decay)
         | S fuel' => line_search_fuel fuel' alpha alpha_update (S decay)
         end
  else (vsub alpha (step_size alpha decay), decay).

Definition line_search (alpha alpha_update : vec) (decay : nat) : vec * nat :=
  line_search_fuel (alpha_maximum_decay cfg - decay) alpha alpha_update decay.

(** The [for alpha_iteration in xrange(...)] loop of lines 166-205; it returns
    the final [self._alpha]. *)
Fixpoint newton_loop (n : nat) (alpha alpha_update : vec) (decay : nat) : vec :=
  match n with
  | O => alpha
  | S n' =>
      let '(alpha_update', decay') := line_search alpha alpha_update decay in
      let mean_change := mean_abs (vsub alpha_update' alpha) in
      if Rleb mean_change (alpha_converge_threshold cfg) then alpha_update'
      else newton_loop n' alpha_update' alpha_update' decay'
  end.

(** No division of lines 174-184 at [alpha] is by zero: the entries of
    [alpha_hessian], [z], and the entries of [1.0 / z + sum_1_h].  (With one
    topic [z = - alpha_hessian], and the last divisor is zero.) *)
Definition divisors_nonzero (alpha : vec) : Prop :=
  Forall (fun h => h <> 0) (alpha_hessian alpha)
  /\ newton_z alpha <> 0
  /\ Forall (fun s => 1 / newton_z alpha + s <> 0) (sum_1_h alpha).


End Newton.

(** Lines 160-207.  The assertion of line 162 fixes the shape of the
    statistics.  The shape of [self._alpha] is looked at inside the loop only:
    with no round of the loop the call returns whatever [self._alpha] is;
    otherwise line 168 adds arrays of shapes [(1, len(alpha))] and [(1, K)],
    which broadcasts the one statistic over [alpha] when [K = 1] and raises
    for other unequal lengths (ValueError at line 168, or the assertion of
    line 185 when [alpha] has one entry). *)
Definition update_alpha (st : model) (alpha_sufficient_statistics : vec)
  : option model :=
  if (length alpha_sufficient_statistics =? _K st)%nat then
    if (length (_alpha st) =? _K st)%nat then
      Some (set_alpha st
              (newton_loop (INR (_D st)) alpha_sufficient_statistics
                 (alpha_maximum_iteration cfg) (_alpha st) (_alpha st) 0))
    else if (alpha_maximum_iteration cfg =? 0)%nat then Some st
    else if (_K st =? 1)%nat then
      Some (set_alpha st
              (newton_loop (INR (_D st))
                 (repeat (hd 0 alpha_sufficient_statistics) (length (_alpha st)))
                 (alpha_maximum_iteration cfg) (_alpha st) (_alpha st) 0))
    else None
  else None.

(** ** [update_phi] *)

(** Lines 133-136: [phi_contribution] after the log-sum-exp normalisation. *)
Definition log_phi (beta_rows : matrix) (gamma_d : vec) : matrix :=
  map (fun b =>
         let u := vadd b (map psi gamma_d) in
         let phi_normalizer := ln (vsum (map exp u)) in
         map (fun x => x - phi_normalizer) u)
      beta_rows.

(** Line 140: [phi_contribution += numpy.log(term_counts.transpose())]. *)
Definition count_weighted (phi : matrix) (counts : vec) : matrix :=
  map (fun p => map (fun x => x + ln (snd p)) (fst p)) (combine phi counts).

(** [numpy.exp] of a matrix, as the exponential of the reals (which is never
    zero; [numpy.exp] is [0.0] below about -745). *)
Definition mexp (m : matrix) : matrix := map (map exp) m.

(** One round of the loop of lines 128-146: the new state, [phi_contribution]
    and [mean_change]. *)
Definition phi_iteration (st : model) (doc_id : nat) (fd : freqdist)
  : option (model * matrix * R) :=
  beta_rows ← rows_at_array (_beta st) (term_ids fd);
  gamma_d ← _gamma st !! doc_id;
  let phi_contribution :=
    count_weighted (log_phi beta_rows gamma_d) (term_counts fd) in
  let gamma_update := vadd (_alpha st) (colsum (_K st) (mexp phi_contribution)) in
  let mean_change := mean_abs (vsub gamma_update gamma_d) in
  Some (set_gamma st (<[doc_id := gamma_update]> (_gamma st)),
        phi_contribution, mean_change).

(** The [for gamma_iteration in xrange(...)] loop.  [last] is the value of
    [phi_contribution] so far: it is unbound until the body has run once, and
    line 148 then fails. *)
Fixpoint gamma_loop (n : nat) (st : model) (doc_id : nat) (fd : freqdist)
    (last : option matrix) : option (model * matrix) :=
  match n with
  | O => phi ← last; Some (st, phi)
  | S n' =>
      r ← phi_iteration st doc_id fd;
      let '(st', phi, mean_change) := r in
      if Rleb mean_change (gamma_converge_threshold cfg) then Some (st', phi)
      else gamma_loop n' st' doc_id fd (Some phi)
  end.

(** Line 148. *)
Definition likelihood_phi_of (k : nat) (phi beta_rows : matrix) (counts : vec) : R :=
  vsum (colsum k
          (map (fun p =>
                  map (fun x => x * snd p)
                      (vmap2 (fun e d => e * d) (map exp (fst (fst p)))
                             (vsub (snd (fst p)) (fst (fst p)))))
               (combine (combine phi beta_rows) counts))).

(** Line 151: [self._phi_table[[term_ids], :] += numpy.exp(phi_contribution)]:
    the rows are read, added to, and written back one by one.  Lines 148 and
    151 are reached with a [phi_contribution] only after line 133 has indexed
    [self._beta] with the same [term_ids], which are then not empty. *)
Definition scatter_add (tbl : matrix) (ids : list nat) (rows : matrix)
  : option matrix :=
  old ← rows_at tbl ids;
  Some (fold_left (fun t p => <[fst p := snd p]> t)
                  (combine ids (map (fun p => vadd (fst p) (snd p)) (combine old rows)))
                  tbl).

Definition update_phi (st : model) (doc_id : nat) : option (model * R) :=
  fd ← data_get (_data st) doc_id;
  r ← gamma_loop (gamma_maximum_iteration cfg) st doc_id fd None;
  let '(st', phi_contribution) := r in
  beta_rows ← rows_at (_beta st') (term_ids fd);
  let likelihood_phi :=
    likelihood_phi_of (_K st') phi_contribution beta_rows (term_counts fd) in
  tbl ← scatter_add (_phi_table st') (term_ids fd) (mexp phi_contribution);
  Some (set_phi_table st' tbl, likelihood_phi).

(** ** [inference] *)

(** Lines 97-106, the body of the loop over the documents. *)
Definition e_step_doc (st : model) (doc : nat) : option (model * R) :=
  fd ← data_get (_data st) doc;
  let total_word_count := freq_N fd in
  if (_K st =? 0)%nat then None
  else if (doc <? length (_gamma st))%nat then
    update_phi
      (set_gamma st
         (<[doc := map (fun a => a + INR total_word_count / INR (_K st)) (_alpha st)]>
            (_gamma st)))
      doc
  else None.

Fixpoint e_step_pass (docs : list nat) (st : model) (likelihood_phi : R)
  : option (model * R) :=
  match docs with
  | [] => Some (st, likelihood_phi)
  | doc :: rest =>
      r ← e_step_doc st doc;
      e_step_pass rest (fst r) (likelihood_phi + snd r)
  end.

(** Lines 114-116, the M-step, with the quotient and the logarithm of the
    reals: numpy's differ for a column whose sum is zero (not-a-number) and
    for an entry that is zero (minus infinity). *)
Definition m_step (st : model) : model :=
  set_beta st
    (map (fun row => map ln (vdiv row (colsum (_K st) (_phi_table st))))
         (_phi_table st)).

Definition inference (st : model) : option (model * R) :=
  let alpha_sum := vsum (_alpha st) in
  let likelihood_alpha :=
    (0 - vsum (map gammaln (_alpha st)) + gammaln alpha_sum) * INR (_D st) in
  let st0 := set_phi_table st (repeat (repeat 0 (_K st)) (_V st)) in
  r ← e_step_pass (map fst (_data st0)) st0 0;
  let '(st1, likelihood_phi) := r in
  let alpha_sufficient_statistics :=
    colsum (_K st1)
      (map (fun g => map (fun x => psi x - psi (vsum g)) g) (_gamma st1)) in
  let likelihood_gamma :=
    vsum (map (fun g => vsum (map gammaln g)) (_gamma st1))
    - vsum (map (fun g => gammaln (vsum g)) (_gamma st1)) in
  let st2 := m_step st1 in
  let likelihood := likelihood_alpha + likelihood_gamma + likelihood_phi in
  st3 ← update_alpha st2 alpha_sufficient_statistics;
  Some (st3, likelihood).

(** ** [learning] *)

(** Line 213. *)
Definition initial_old_likelihood : R := 0.

(** Line 219: the quotient whose magnitude is compared with the threshold. *)
Definition relative_change (new_likelihood old_likelihood : R) : npfloat :=
  np_abs (np_divide (new_likelihood - old_likelihood) old_likelihood).

(** The loop of lines 215-223.  It returns the final state and the likelihoods
    printed by line 217, oldest first. *)
Fixpoint learning_loop (n : nat) (st : model) (old_likelihood : R) (printed : list R)
  : option (model * list R) :=
  match n with
  | O => Some (st, printed)
  | S n' =>
      r ← inference st;
      let '(st', new_likelihood) := r in
      if np_lt (relative_change new_likelihood old_likelihood) (converge_threshold cfg)
      then Some (st', printed ++ [new_likelihood])
      else learning_loop n' st' new_likelihood (printed ++ [new_likelihood])
  end.

Definition learning (st : model) (iteration : Z) : option (model * list R) :=
  let iteration :=
    if (iteration <=? 0)%Z then maximum_iteration cfg else Z.to_nat iteration in
  learning_loop iteration st initial_old_likelihood [].

End VB.

(** ** [_initialize]

    [data] is the corpus after [dict_list_2_dict_freqdist]; [draw_alpha] and
    [draw_beta] are the outcomes of the two calls of [numpy.random.random],
    each number in the half-open interval from 0 (included) to 1 (excluded). *)

Definition unit_interval (u : R) : Prop := 0 <= u < 1.

Definition vocab_of (data : corpus) : list nat :=
  remove_dups (concat (map (fun d => term_ids (snd d)) data)).

Definition _initialize (data : corpus) (num_topics : nat)
    (draw_alpha : vec) (draw_beta : matrix) : option model :=
  let K := num_topics in
  let alpha := map (fun u => u / INR K) draw_alpha in
  let D := length data in
  let V := length (vocab_of data) in
  (* 1.0*self._V/self._K and 1.0/self._V are divisions of Python floats *)
  if (K =? 0)%nat then None
  else if (V =? 0)%nat then None
  else
    Some {| _K := K; _D := D; _V := V; _data := data; _alpha := alpha;
            _gamma := repeat (map (fun a => a + INR V / INR K) alpha) D;
            _beta := map (map (fun u => ln (1 / INR V + u))) draw_beta;
            _phi_table := [] |}.

(** The state used to exercise [update_alpha]: two topics, one document. *)
Definition newton_example : model :=
  {| _K := 2; _D := 1; _V := 1; _data := [(0%nat, [(0%nat, 1%positive)])];
     _alpha := [1; 1]; _gamma := [[1; 1]]; _beta := [[0; 0]];
     _phi_table := [[0; 0]] |}.

(** Following the spec's words (4.3, step 4): the scalar
    [c = (sum_k gradient_k/h_k) / (1/z + sum_k 1/h_k)]. *)
Definition c_spec (psi : R -> R) (polygamma : nat -> R -> R) (Dn : R) (ss alpha : vec) : R :=
  sum_g_h psi polygamma Dn ss alpha
  / (1 / newton_z polygamma Dn alpha + vsum (sum_1_h polygamma Dn alpha)).

Definition all_negative (v : vec) : Prop := Forall (fun a => a < 0) v.
Definition all_positive (v : vec) : Prop := Forall (fun a => 0 < a) v.


(** One document holding term 0 three times. *)
Definition small_example : model :=
  {| _K := 2; _D := 1; _V := 1; _data := [(0%nat, [(0%nat, 3%positive)])];
     _alpha := [1; 1]; _gamma := [[1; 1]]; _beta := [[0; 0]];
     _phi_table := [] |}.

(** Two documents, the second with no occurring term. *)
Definition empty_document_example : model :=
  {| _K := 2; _D := 2; _V := 1;
     _data := [(0%nat, [(0%nat, 3%positive)]); (1%nat, [])];
     _alpha := [1; 2]; _gamma := [[7; 7]; [7; 7]]; _beta := [[0; 0]];
     _phi_table := [[3; 4]] |}.

(** ** Shapes *)

Definition rows_of_width (k : nat) (m : matrix) : Prop :=
  Forall (fun r => length r = k) m.

Definition nonneg_table (m : matrix) : Prop :=
  Forall (Forall (fun x => 0 <= x)) m.

Definition positive_table (m : matrix) : Prop := Forall all_positive m.

(** Row [v] of the table exists and has positive entries only. *)
Definition positive_row (m : matrix) (v : nat) : Prop :=
  exists r, m !! v = Some r /\ all_positive r.

(** The shapes the arrays of a state have: [self._alpha] is [(1, K)],
    [self._beta] is [(V, K)]. *)
Record well_shaped (st : model) : Prop := {
  shape_alpha : length (_alpha st) = _K st;
  shape_beta_rows : length (_beta st) = _V st;
  shape_beta : rows_of_width (_K st) (_beta st)
}.

(** [phi_contribution] has a row of [K] entries per occurring term of the
    document. *)
Definition phi_shaped (s0 : model) (fd : freqdist) (phi : matrix) : Prop :=
  rows_of_width (_K s0) phi /\ length phi = length fd.

(** The row of [self._gamma] for the document, when there is one, has [K]
    entries. *)
Definition doc_row_shaped (s0 : model) (doc : nat) (g : matrix) : Prop :=
  forall gd, g !! doc = Some gd -> length gd = _K s0.

(** A configuration whose gamma loop has no round, and a state whose
    document holds a term id past the rows of [self._beta]. *)
Definition no_rounds_config : config := {|
  alpha_update_decay_factor := 9 / 10;
  alpha_maximum_decay := 10;
  gamma_converge_threshold := 1 / 1000000;
  gamma_maximum_iteration := 0;
  alpha_converge_threshold := 1 / 1000000;
  alpha_maximum_iteration := 100;
  converge_threshold := 1 / 100000;
  maximum_iteration := 100
|}.

Definition unknown_term_example : model :=
  {| _K := 2; _D := 1; _V := 1; _data := [(0%nat, [(5%nat, 1%positive)])];
     _alpha := [1; 1]; _gamma := [[1; 1]]; _beta := [[0; 0]];
     _phi_table := [] |}.

(** ** States the code runs on *)

(** What [_initialize] sets up for a corpus whose document ids are row
    indices of [self._gamma] and whose term ids are row indices of
    [self._beta], and what [inference] keeps: at least one topic, [alpha] of
    shape [(1, K)], [beta] of shape [(V, K)], [gamma] of shape [(D, K)]. *)
Record model_ok (st : model) : Prop := {
  ok_K : (1 <= _K st)%nat;
  ok_alpha : length (_alpha st) = _K st;
  ok_beta_rows : length (_beta st) = _V st;
  ok_beta : rows_of_width (_K st) (_beta st);
  ok_gamma_rows : length (_gamma st) = _D st;
  ok_gamma : rows_of_width (_K st) (_gamma st);
  ok_docs : Forall (fun d => (fst d < _D st)%nat) (_data st);
  ok_terms :
    Forall (fun d => Forall (fun t => (t < _V st)%nat) (term_ids (snd d))) (_data st)
}.

(** The fields that only [_initialize] writes. *)
Definition same_corpus (st st' : model) : Prop :=
  _K st' = _K st /\ _D st' = _D st /\ _V st' = _V st /\ _data st' = _data st.

(** [sum(m)] over all the entries of a matrix. *)
Definition msum (m : matrix) : R := vsum (map vsum m).

(** The number of tokens of the corpus. *)
Definition corpus_tokens (data : corpus) : nat :=
  fold_right Nat.add 0%nat (map (fun d => freq_N (snd d)) data).

(** [phi] is the [phi_contribution] of a round of the loop of [update_phi]
    that started from a row of [K] entries, and [row] is the [gamma_update] of
    that round (lines 133-142). *)
Definition round_of (psi : R -> R) (s0 : model) (fd : freqdist)
    (phi : matrix) (row : vec) : Prop :=
  exists beta_rows gamma_d,
    rows_at (_beta s0) (term_ids fd) = Some beta_rows
    /\ length gamma_d = _K s0
    /\ phi = count_weighted (log_phi psi beta_rows gamma_d) (term_counts fd)
    /\ row = vadd (_alpha s0) (colsum (_K s0) (mexp phi)).

(** The state inside the loop of [inference] over the documents:
    [self._phi_table] has shape [(V, K)] and no negative entry. *)
Record pass_ok (st : model) : Prop := {
  pass_model : model_ok st;
  pass_rows : length (_phi_table st) = _V st;
  pass_width : rows_of_width (_K st) (_phi_table st);
  pass_nonneg : nonneg_table (_phi_table st)
}.

(** The row that line 151 adds to row [v] of [self._phi_table], for distinct
    term ids: the row of [numpy.exp(phi_contribution)] that stands where [v]
    stands among the term ids. *)
Fixpoint added_row (ids : list nat) (rows : matrix) (v : nat) : option vec :=
  match ids, rows with
  | t :: ids', x :: rows' => if (t =? v)%nat then Some x else added_row ids' rows' v
  | _, _ => None
  end.

(** Two documents that share term 0. *)
Definition two_document_example : model :=
  {| _K := 2; _D := 2; _V := 2;
     _data := [(0%nat, [(0%nat, 1%positive); (1%nat, 2%positive)]);
               (1%nat, [(0%nat, 3%positive)])];
     _alpha := [1; 1]; _gamma := [[1; 1]; [1; 1]]; _beta := [[0; 0]; [0; 0]];
     _phi_table := [[0; 0]; [0; 0]] |}.

(** * Properties *)

(** ** Indexing with the term ids of a document *)

Lemma rows_at_array_nonempty (m : matrix) (keys : list nat) :
  keys <> [] -> rows_at_array m keys = rows_at m keys.
Proof. destruct keys; [congruence | reflexivity]. Qed.

Lemma rows_at_array_Some (m : matrix) (keys : list nat) (rows : matrix) :
  rows_at_array m keys = Some rows <-> keys <> [] /\ rows_at m keys = Some rows.
Proof.
  destruct keys as [|k keys]; simpl; split.
  - discriminate.
  - intros [H _]. congruence.
  - intros H. split; [discriminate | exact H].
  - intros [_ H]. exact H.
Qed.

Lemma data_get_elem (data : corpus) (d : nat) (fd : freqdist) :
  data_get data d = Some fd -> In (d, fd) data.
Proof.
  induction data as [|[d' fd'] data IH]; simpl; [discriminate|].
  destruct (Nat.eqb_spec d' d) as [-> | _].
  - intros [= ->]. auto.
  - intros H. right. apply IH, H.
Qed.

(** ** Comparisons and vectors *)

Lemma Rleb_true x y : Rleb x y = true <-> x <= y.
Proof. unfold Rleb. destruct (Rle_dec x y); split; intros; auto; discriminate. Qed.

Lemma Rgeb_true x y : Rgeb x y = true <-> x >= y.
Proof. unfold Rgeb. destruct (Rge_dec x y); split; intros; auto; discriminate. Qed.

Lemma Rgeb_false x y : Rgeb x y = false <-> x < y.
Proof.
  unfold Rgeb. destruct (Rge_dec x y); split; intros; try discriminate; auto; lra.
Qed.

Lemma any_ge_false_neg u v :
  any_ge u v = false -> Forall (fun a => a < 0) (vsub u v).
Proof.
  unfold any_ge, vsub, vmap2. revert v.
  induction u as [|a u IH]; intros [|b v]; simpl; intros H; try constructor.
  - apply orb_false_iff in H as [H1 H2]. apply Rgeb_false in H1. lra.
  - apply orb_false_iff in H as [H1 H2]. apply IH; assumption.
Qed.

Lemma any_ge_true_iff u v :
  any_ge u v = true <->
  exists k a s, u !! k = Some a /\ v !! k = Some s /\ a >= s.
Proof.
  unfold any_ge. revert v.
  induction u as [|a u IH]; intros [|b v]; simpl.
  - split; [discriminate|]. intros (k & x & s & H & _). destruct k; discriminate.
  - split; [discriminate|]. intros (k & x & s & H & _). destruct k; discriminate.
  - split; [discriminate|]. intros (k & x & s & _ & H & _). destruct k; discriminate.
  - rewrite orb_true_iff, Rgeb_true, IH. split.
    + intros [H | (k & x & s & H1 & H2 & H3)].
      * exists 0%nat, a, b. auto.
      * exists (S k), x, s. auto.
    + intros (k & x & s & H1 & H2 & H3). destruct k as [|k]; simpl in *.
      * left. congruence.
      * right. eauto 6.
Qed.

(** ** The Newton loop accepts only candidates below zero *)

Section NewtonFacts.

Variable psi : R -> R.
Variable polygamma : nat -> R -> R.
Variable cfg : config.
Variable Dn : R.
Variable ss : vec.

Lemma line_search_fuel_result fuel alpha alpha_update decay :
  let r := line_search_fuel psi polygamma cfg Dn ss fuel alpha alpha_update decay in
  fst r = alpha_update \/ all_negative (fst r).
Proof.
  revert decay. induction fuel as [|fuel IH]; intros decay; simpl.
  - destruct (any_ge _ _) eqn:E.
    + destruct (_ <? _)%nat; simpl; auto.
    + right. simpl. apply any_ge_false_neg, E.
  - destruct (any_ge _ _) eqn:E.
    + destruct (_ <? _)%nat; simpl; auto.
    + right. simpl. apply any_ge_false_neg, E.
Qed.

Lemma newton_loop_result n alpha alpha_update decay :
  let r := newton_loop psi polygamma cfg Dn ss n alpha alpha_update decay in
  r = alpha \/ r = alpha_update \/ all_negative r.
Proof.
  revert alpha alpha_update decay.
  induction n as [|n IH]; intros alpha alpha_update decay; simpl; auto.
  pose proof (line_search_fuel_result (alpha_maximum_decay cfg - decay)
                alpha alpha_update decay) as Hls.
  unfold line_search. simpl in Hls.
  destruct (line_search_fuel _ _ _ _ _ _ _ _ _) as [upd d'] eqn:E. simpl in Hls.
  destruct (Rleb _ _).
  - destruct Hls as [-> | Hn]; auto.
  - destruct (IH upd upd d') as [H | [H | H]]; simpl in H; rewrite ?H; auto;
      try (destruct Hls as [-> | Hn]; auto).
Qed.

Lemma newton_loop_negative n alpha decay :
  all_negative alpha ->
  all_negative (newton_loop psi polygamma cfg Dn ss n alpha alpha decay).
Proof.
  intros Hn. destruct (newton_loop_result n alpha alpha decay) as [H | [H | H]];
    simpl in H; rewrite ?H; assumption.
Qed.

(** The [while] loop as the code writes it, without the fuel. *)
Lemma line_search_unfold alpha alpha_update decay :
  line_search psi polygamma cfg Dn ss alpha alpha_update decay =
  if any_ge alpha (step_size psi polygamma cfg Dn ss alpha decay) then
    if (alpha_maximum_decay cfg <? S decay)%nat then (alpha_update, S decay)
    else line_search psi polygamma cfg Dn ss alpha alpha_update (S decay)
  else (vsub alpha (step_size psi polygamma cfg Dn ss alpha decay), decay).
Proof.
  unfold line_search.
  destruct (alpha_maximum_decay cfg - decay)%nat as [|f] eqn:Ef; simpl.
  - destruct (any_ge _ _); auto.
    destruct (_ <? _)%nat eqn:El; auto.
    apply Nat.ltb_ge in El. lia.
  - destruct (any_ge _ _); auto.
    destruct (_ <? _)%nat eqn:El; auto.
    replace (alpha_maximum_decay cfg - S decay)%nat with f by lia. reflexivity.
Qed.

Lemma line_search_stuck alpha alpha_update :
  (forall d, any_ge alpha (step_size psi polygamma cfg Dn ss alpha d) = true) ->
  forall fuel decay,
    fst (line_search_fuel psi polygamma cfg Dn ss fuel alpha alpha_update decay)
    = alpha_update.
Proof.
  intros Hs. induction fuel as [|fuel IH]; intros decay; simpl; rewrite Hs.
  - destruct (_ <? _)%nat; reflexivity.
  - destruct (_ <? _)%nat; [reflexivity | apply IH].
Qed.

Lemma vsum_abs_self (a : vec) : vsum (map Rabs (vsub a a)) = 0.
Proof.
  unfold vsub, vmap2. induction a as [|x a IH]; simpl; [reflexivity|].
  rewrite IH. replace (x - x) with 0 by lra. rewrite Rabs_R0. lra.
Qed.

Lemma mean_abs_self (a : vec) : mean_abs (vsub a a) = 0.
Proof. unfold mean_abs. rewrite vsum_abs_self. unfold Rdiv. apply Rmult_0_l. Qed.

(** A first candidate that is accepted is below zero, and so is the result. *)
Lemma newton_loop_accept n alpha decay :
  any_ge alpha (step_size psi polygamma cfg Dn ss alpha decay) = false ->
  all_negative (newton_loop psi polygamma cfg Dn ss (S n) alpha alpha decay).
Proof.
  intros Ha. simpl. rewrite line_search_unfold, Ha.
  pose proof (any_ge_false_neg _ _ Ha) as Hneg.
  destruct (Rleb _ _); [exact Hneg|]. apply newton_loop_negative, Hneg.
Qed.

(** When every damped step is refused, [self._alpha] is left as it was. *)
Lemma newton_loop_stuck n alpha decay :
  (forall d, any_ge alpha (step_size psi polygamma cfg Dn ss alpha d) = true) ->
  0 <= alpha_converge_threshold cfg ->
  newton_loop psi polygamma cfg Dn ss n alpha alpha decay = alpha.
Proof.
  intros Hs Hthr. destruct n as [|n]; simpl; [reflexivity|].
  unfold line_search.
  pose proof (line_search_stuck alpha alpha Hs (alpha_maximum_decay cfg - decay) decay) as E.
  destruct (line_search_fuel _ _ _ _ _ _ _ _ _) as [upd d']. simpl in E. subst upd.
  rewrite mean_abs_self.
  destruct (Rleb 0 (alpha_converge_threshold cfg)) eqn:El; [reflexivity|].
  exfalso. apply Rleb_true in Hthr. congruence.
Qed.


End NewtonFacts.

(** [update_alpha] writes [self._alpha] and nothing else. *)
Lemma update_alpha_form
    (psi : R -> R) (polygamma : nat -> R -> R) (cfg : config) (ss : vec)
    (st st' : model) :
  update_alpha psi polygamma cfg st ss = Some st' ->
  exists a, st' = set_alpha st a.
Proof.
  unfold update_alpha.
  destruct (_ =? _)%nat; [|discriminate].
  destruct (_ =? _)%nat; [intros [= <-]; eauto|].
  destruct (_ =? _)%nat; [intros [= <-]; exists (_alpha st); destruct st; reflexivity|].
  destruct (_ =? _)%nat; [intros [= <-]; eauto | discriminate].
Qed.



(** ** [update_alpha] at [alpha = [1; 1]]

    What is used of the special functions are four facts of the digamma and
    trigamma functions: [psi(x + 1) = psi(x) + 1/x] at [x = 1], and
    [polygamma(1, 1) = pi^2/6 = 1.6449...], [polygamma(1, 2) = pi^2/6 - 1]. *)

Section NewtonExample.

Variable psi : R -> R.
Variable polygamma : nat -> R -> R.
Hypothesis psi_rec : psi 2 - psi 1 = 1.
Hypothesis tri_pos : 0 < polygamma 1 2.
Hypothesis tri_dec : polygamma 1 2 < polygamma 1 1.
Hypothesis tri_one : polygamma 1 1 <= 2.

Let t := polygamma 1 1.
Let tz := polygamma 1 2.

(** The undamped Newton direction for [ss = [s; s]] at [alpha = [1; 1]]. *)
Let direction (s : R) : R := - ((1 + s) * (t + tz) / ((t - tz) * t)).

Lemma example_step s d :
  step_size psi polygamma default_config 1 [s; s] [1; 1] d =
  [(9 / 10) ^ d * direction s; (9 / 10) ^ d * direction s].
Proof.
  unfold step_size, newton_c, sum_1_h, sum_g_h, newton_z, alpha_hessian, alpha_gradient,
    vdiv, vsub, vadd, vmap2, vsum, direction, t, tz. simpl.
  replace (1 + (1 + 0)) with 2 by lra. rewrite psi_rec.
  assert (polygamma 1 1 <> 0) by lra.
  assert (polygamma 1 2 <> 0) by lra.
  assert (polygamma 1 1 - polygamma 1 2 <> 0) by lra.
  f_equal; [|f_equal]; field; repeat split; try lra.
Qed.

Lemma example_c s :
  newton_c psi polygamma 1 [s; s] [1; 1] =
  [- (2 * (1 + s) * tz / (t - tz)); - (2 * (1 + s) * tz / (t - tz))].
Proof.
  unfold newton_c, sum_1_h, sum_g_h, newton_z, alpha_hessian, alpha_gradient,
    vdiv, vsub, vadd, vmap2, vsum, t, tz. simpl.
  replace (1 + (1 + 0)) with 2 by lra. rewrite psi_rec.
  assert (polygamma 1 1 <> 0) by lra.
  assert (polygamma 1 2 <> 0) by lra.
  assert (polygamma 1 1 - polygamma 1 2 <> 0) by lra.
  f_equal; [|f_equal]; field; repeat split; try lra.
Qed.

Lemma direction_large : 1 < direction (-10).
Proof.
  unfold direction.
  assert (Ht : 0 < t) by (unfold t; lra).
  assert (Hd : 0 < t - tz) by (unfold t, tz; lra).
  assert (Hz : 0 < tz) by (unfold tz; lra).
  assert (H2 : t <= 2) by (unfold t; lra).
  replace (- ((1 + -10) * (t + tz) / ((t - tz) * t)))
    with (9 * (t + tz) / ((t - tz) * t)) by (field; lra).
  assert (Hp : 0 < (t - tz) * t) by nra.
  apply (Rmult_lt_reg_r ((t - tz) * t)); [exact Hp|].
  unfold Rdiv. rewrite Rmult_assoc, Rinv_l by lra. nra.
Qed.

Lemma direction_zero_neg : direction 0 < 0.
Proof.
  unfold direction.
  assert (Ht : 0 < t) by (unfold t; lra).
  assert (Hd : 0 < t - tz) by (unfold t, tz; lra).
  assert (Hz : 0 < tz) by (unfold tz; lra).
  assert (0 < (1 + 0) * (t + tz) / ((t - tz) * t)); [|lra].
  apply Rdiv_lt_0_compat; nra.
Qed.

Lemma example_accepts :
  any_ge [1; 1] (step_size psi polygamma default_config 1 [-10; -10] [1; 1] 0) = false.
Proof.
  rewrite example_step. pose proof direction_large as Hl.
  unfold any_ge. simpl.
  assert (E : Rgeb 1 (1 * direction (-10)) = false) by (apply Rgeb_false; lra).
  rewrite E. reflexivity.
Qed.

Lemma example_refuses d :
  any_ge [1; 1] (step_size psi polygamma default_config 1 [0; 0] [1; 1] d) = true.
Proof.
  rewrite example_step. pose proof direction_zero_neg as Hl.
  assert (Hp : 0 < (9 / 10) ^ d) by (apply pow_lt; lra).
  unfold any_ge. simpl.
  assert (E : Rgeb 1 ((9 / 10) ^ d * direction 0) = true) by (apply Rgeb_true; nra).
  rewrite E. reflexivity.
Qed.

(** C1 (the code breaks it).  [update_alpha] does not keep [self._alpha]
    positive: from [alpha = [1; 1]] with [K = 2], [D = 1] and the statistics
    [[-10; -10]], the call returns, and every component of the new
    [self._alpha] is below zero.  Line 187 tests [alpha >= step_size] where the
    candidate [alpha - step_size] is non-positive when [step_size >= alpha]; a
    candidate is therefore accepted only when all its components are negative. *)
Theorem update_alpha_loses_positivity :
  all_positive (_alpha newton_example) /\
  exists st',
    update_alpha psi polygamma default_config newton_example [-10; -10] = Some st'
    /\ all_negative (_alpha st').
Proof.
  split.
  - repeat constructor; lra.
  - eexists. split; [reflexivity|].
    cbn [_alpha set_alpha newton_example _D INR].
    change (alpha_maximum_iteration default_config) with (S 99).
    apply newton_loop_accept, example_accepts.
Qed.

(** C2 (the code breaks it).  The branch of lines 187-197 is not taken
    exactly when [step_k >= alpha_k] for some [k].  With the statistics
    [[0; 0]] every step is below its [alpha_k] (the candidate is positive), yet
    the code takes the decay branch, at every decay, and returns [self._alpha]
    unchanged; with the statistics [[-10; -10]] every step is at least its
    [alpha_k], yet the candidate is accepted. *)
Theorem backoff_branch_is_inverted :
  let alpha := [1; 1] in
  let refused := step_size psi polygamma default_config 1 [0; 0] alpha 0 in
  let accepted := step_size psi polygamma default_config 1 [-10; -10] alpha 0 in
  (Forall2 (fun a s => s < a) alpha refused /\ any_ge alpha refused = true)
  /\ (Forall2 (fun a s => s >= a) alpha accepted /\ any_ge alpha accepted = false)
  /\ update_alpha psi polygamma default_config newton_example [0; 0]
     = Some newton_example.
Proof.
  cbv zeta. repeat split.
  - rewrite example_step. pose proof direction_zero_neg.
    repeat constructor; simpl; lra.
  - apply example_refuses.
  - rewrite example_step. pose proof direction_large.
    repeat constructor; simpl; lra.
  - apply example_accepts.
  - unfold update_alpha. cbn [_alpha newton_example _D _K INR length Nat.eqb andb].
    rewrite newton_loop_stuck; [reflexivity | apply example_refuses | simpl; lra].
Qed.

(** C3 (the code breaks it).  The quantity [c] of line 178 is not the scalar
    [(sum_k g_k/h_k) / (1/z + sum_k 1/h_k)]: [sum_1_h] is the array [1/h_k], and
    at [alpha = [1; 1]] with the statistics [[-10; -10]] no component of the
    array [c] equals the scalar of the spec. *)
Theorem newton_c_is_not_the_scalar :
  Forall (fun c => c <> c_spec psi polygamma 1 [-10; -10] [1; 1])
         (newton_c psi polygamma 1 [-10; -10] [1; 1]).
Proof.
  rewrite example_c.
  assert (Ht : 0 < t) by (unfold t; lra).
  assert (Hd : 0 < t - tz) by (unfold t, tz; lra).
  assert (Hz : 0 < tz) by (unfold tz; lra).
  assert (Hc : 0 < - (2 * (1 + -10) * tz / (t - tz))).
  { replace (- (2 * (1 + -10) * tz / (t - tz))) with (18 * tz / (t - tz)) by (field; lra).
    apply Rdiv_lt_0_compat; lra. }
  assert (Hs : c_spec psi polygamma 1 [-10; -10] [1; 1]
               = (18 / t) / (1 / tz - 2 / t)).
  { unfold c_spec, sum_1_h, sum_g_h, newton_z, alpha_hessian, alpha_gradient,
      vdiv, vsub, vadd, vmap2, vsum. simpl.
    replace (1 + (1 + 0)) with 2 by lra. rewrite psi_rec. fold t tz.
    f_equal; field; lra. }
  rewrite Hs.
  assert (Hne : - (2 * (1 + -10) * tz / (t - tz)) <> 18 / t / (1 / tz - 2 / t)).
  { destruct (Req_dec (1 / tz - 2 / t) 0) as [E | E].
    - rewrite E. replace (18 / t / 0) with 0 by (unfold Rdiv; rewrite Rinv_0; ring).
      lra.
    - intros Heq.
      assert (Hx : t - 2 * tz <> 0).
      { intros Hx. apply E. assert (Et : t = 2 * tz) by lra. rewrite Et. field. lra. }
      assert (E2 : 18 / t / (1 / tz - 2 / t) = 18 * tz / (t - 2 * tz)) by (field; lra).
      rewrite E2 in Heq.
      replace (- (2 * (1 + -10) * tz / (t - tz))) with (18 * tz / (t - tz)) in Heq
        by (field; lra).
      assert (H3 : 18 * tz * (t - 2 * tz) = 18 * tz * (t - tz)).
      { apply (f_equal (fun x => x * (t - tz) * (t - 2 * tz))) in Heq.
        field_simplify in Heq; lra. }
      nra. }
  repeat constructor; exact Hne.
Qed.
End NewtonExample.

(** ** The E-step *)

Lemma vsum_zeros (k : nat) : vsum (repeat 0 k) = 0.
Proof. induction k as [|k IH]; simpl; [reflexivity | rewrite IH; lra]. Qed.

Lemma vsum_map_scale (c : R) (v : vec) :
  vsum (map (fun x => x * c) v) = vsum v * c.
Proof. induction v as [|x v IH]; simpl; [lra | rewrite IH; lra]. Qed.

Lemma vsum_exp_pos (u : vec) : u <> [] -> 0 < vsum (map exp u).
Proof.
  assert (H : forall w : vec, 0 <= vsum (map exp w)).
  { induction w as [|x w IH]; simpl; [lra|]. pose proof (exp_pos x). lra. }
  destruct u as [|x u]; [congruence|]. intros _. simpl.
  pose proof (exp_pos x). pose proof (H u). lra.
Qed.

Lemma exp_minus_ln (x s : R) : 0 < s -> exp (x - ln s) = exp x * / s.
Proof.
  intros Hs. unfold Rminus. rewrite exp_plus, exp_Ropp, exp_ln by assumption.
  reflexivity.
Qed.

(** Subtracting the logarithm of the sum of the exponentials leaves
    exponentials that sum to one. *)
Lemma log_sum_exp_normalised (u : vec) :
  u <> [] ->
  vsum (map exp (map (fun x => x - ln (vsum (map exp u))) u)) = 1.
Proof.
  intros Hu. pose proof (vsum_exp_pos u Hu) as Hs.
  rewrite map_map.
  rewrite (map_ext _ (fun x => exp x * / vsum (map exp u))).
  - rewrite <- (map_map exp (fun e => e * / vsum (map exp u))).
    rewrite vsum_map_scale. apply Rinv_r. lra.
  - intros x. apply exp_minus_ln, Hs.
Qed.

Lemma vmap2_length f (u v : vec) :
  length (vmap2 f u v) = Nat.min (length u) (length v).
Proof. unfold vmap2. rewrite length_map, length_combine. reflexivity. Qed.

Section EStepFacts.

Variable psi : R -> R.
Variable cfg : config.


End EStepFacts.

Section InferenceFacts.

Variable psi : R -> R.
Variable cfg : config.

Lemma e_step_doc_resets st doc fd :
  data_get (_data st) doc = Some fd ->
  _K st <> 0%nat ->
  (doc < length (_gamma st))%nat ->
  e_step_doc psi cfg st doc =
  update_phi psi cfg
    (set_gamma st
       (<[doc := map (fun a => a + INR (freq_N fd) / INR (_K st)) (_alpha st)]>
          (_gamma st)))
    doc.
Proof.
  intros Hd HK Hdoc. unfold e_step_doc. rewrite Hd. simpl.
  apply Nat.eqb_neq in HK. rewrite HK.
  apply Nat.ltb_lt in Hdoc. rewrite Hdoc. reflexivity.
Qed.

End InferenceFacts.

(** C10.  The M-step is idempotent: it reads [self._phi_table] only, so running
    it twice gives the [self._beta] of running it once, whatever [self._beta]
    held before. *)
Theorem m_step_idempotent (st : model) :
  m_step (m_step st) = m_step st
  /\ forall b, m_step (set_beta st b) = m_step st.
Proof. destruct st; split; reflexivity. Qed.

(** ** The first convergence test of [learning] *)

Lemma relative_change_zero (new_likelihood : R) :
  relative_change new_likelihood initial_old_likelihood = PosInf
  \/ relative_change new_likelihood initial_old_likelihood = NaN.
Proof.
  unfold relative_change, np_divide, initial_old_likelihood.
  destruct (Req_dec_T 0 0) as [_ | H]; [|congruence].
  destruct (Rlt_dec 0 (new_likelihood - 0)); [left; reflexivity|].
  destruct (Rlt_dec (new_likelihood - 0) 0); [left | right]; reflexivity.
Qed.

(** C4 (the code breaks it).  The first round of the loop of [learning] does
    not skip the convergence test: it divides by [old_likelihood = 0.0], the
    quotient is never finite (an infinity or not a number) whatever the new
    likelihood is, the comparison with the threshold is false, and the loop goes
    on to the next round. *)
Theorem first_convergence_test_divides_by_zero
    (psi : R -> R) (polygamma : nat -> R -> R) (gammaln : R -> R) (cfg : config)
    (st : model) (n : nat) :
  (forall new_likelihood,
      np_finite (relative_change new_likelihood initial_old_likelihood) = false)
  /\ learning_loop psi polygamma gammaln cfg (S n) st initial_old_likelihood [] =
     match inference psi polygamma gammaln cfg st with
     | Some (st', new_likelihood) =>
         learning_loop psi polygamma gammaln cfg n st' new_likelihood [new_likelihood]
     | None => None
     end.
Proof.
  split.
  - intros new. destruct (relative_change_zero new) as [E | E]; rewrite E; reflexivity.
  - simpl. destruct (inference psi polygamma gammaln cfg st) as [[st' new]|]; simpl;
      [|reflexivity].
    destruct (relative_change_zero new) as [E | E]; rewrite E; reflexivity.
Qed.

(** ** [_initialize] *)

Lemma initialize_alpha data K draw_alpha draw_beta st :
  _initialize data K draw_alpha draw_beta = Some st ->
  _alpha st = map (fun u => u / INR K) draw_alpha /\ K <> 0%nat.
Proof.
  unfold _initialize. cbv zeta.
  destruct (Nat.eqb_spec K 0) as [|HK]; [discriminate|].
  destruct (Nat.eqb_spec (length (vocab_of data)) 0); [discriminate|].
  intros [= <-]. simpl. split; [reflexivity | exact HK].
Qed.

(** X2.  When no draw of [numpy.random.random((1, K))] is zero, every
    component of the [self._alpha] of [_initialize] is positive. *)
Lemma initialize_alpha_positive data K draw_alpha draw_beta st :
  _initialize data K draw_alpha draw_beta = Some st ->
  Forall (fun u => 0 < u) draw_alpha ->
  all_positive (_alpha st).
Proof.
  intros H Hu. destruct (initialize_alpha _ _ _ _ _ H) as [-> HK].
  apply Forall_map. eapply Forall_impl; [exact Hu|]. intros u Hpos. simpl.
  apply Rdiv_lt_0_compat; [exact Hpos|]. apply lt_0_INR. lia.
Qed.

(** C8 (the code breaks it).  [numpy.random.random] draws from the half-open
    interval that includes 0: on the draw [[0; 1/2]] the vector [self._alpha]
    that [_initialize] builds has a component equal to zero, so it is not
    strictly positive for every outcome of the draw. *)
Theorem initialize_alpha_zero_draw :
  Forall unit_interval [0; 1 / 2]
  /\ exists st,
       _initialize [(0%nat, [(0%nat, 1%positive)])] 2 [0; 1 / 2] [[1 / 2; 1 / 2]]
       = Some st
       /\ _alpha st !! 0%nat = Some 0
       /\ ~ all_positive (_alpha st).
Proof.
  split.
  - unfold unit_interval. repeat constructor; lra.
  - eexists. split; [reflexivity|]. simpl.
    assert (E : 0 / (1 + 1) = 0) by (unfold Rdiv; apply Rmult_0_l).
    rewrite E. split; [reflexivity|].
    intros H. inversion H as [|? ? H0 _]. lra.
Qed.

(** ** The M-step *)




Lemma vadd_length (u v : vec) :
  length (vadd u v) = Nat.min (length u) (length v).
Proof. apply vmap2_length. Qed.

Lemma colsum_length (k : nat) (m : matrix) :
  rows_of_width k m -> length (colsum k m) = k.
Proof.
  unfold colsum. induction 1 as [|r m Hr _ IH]; simpl.
  - apply repeat_length.
  - rewrite vadd_length, IH, Hr. lia.
Qed.




(** ** Accumulation of the phi-table *)

Lemma fold_insert_length (ps : list (nat * vec)) (T : matrix) :
  length (fold_left (fun t p => <[fst p := snd p]> t) ps T) = length T.
Proof.
  revert T. induction ps as [|[i x] ps IH]; intros T; simpl; [reflexivity|].
  rewrite IH. apply length_insert.
Qed.

Lemma fold_insert_other (ps : list (nat * vec)) (T : matrix) (v : nat) :
  ~ In v (map fst ps) ->
  fold_left (fun t p => <[fst p := snd p]> t) ps T !! v = T !! v.
Proof.
  revert T. induction ps as [|[i x] ps IH]; intros T Hv; simpl; [reflexivity|].
  simpl in Hv. rewrite IH by tauto.
  apply list_lookup_insert_ne. intros ->. tauto.
Qed.

Lemma fold_insert_written (ps : list (nat * vec)) (T : matrix) (v : nat) :
  In v (map fst ps) -> (v < length T)%nat ->
  exists row, In (v, row) ps
    /\ fold_left (fun t p => <[fst p := snd p]> t) ps T !! v = Some row.
Proof.
  revert T. induction ps as [|[i x] ps IH]; intros T Hv Hl; simpl in *; [tauto|].
  destruct (in_dec Nat.eq_dec v (map fst ps)) as [Hin | Hout].
  - destruct (IH (<[i:=x]> T) Hin) as (row & H1 & H2).
    + rewrite length_insert. exact Hl.
    + exists row. auto.
  - destruct Hv as [-> | Hv]; [|tauto].
    exists x. split; [auto|].
    rewrite fold_insert_other by exact Hout.
    apply list_lookup_insert_eq, Hl.
Qed.

(** Every row written by line 151 is the row read plus a row of the
    increment. *)
Lemma scatter_pairs (T : matrix) (ids : list nat) (old X : matrix) :
  rows_at T ids = Some old ->
  forall v row,
    In (v, row) (combine ids (map (fun p => vadd (fst p) (snd p)) (combine old X))) ->
    exists o x, T !! v = Some o /\ In x X /\ row = vadd o x.
Proof.
  intros H. apply mapM_Some_1 in H. revert X.
  induction H as [|t o ids old Ht _ IH]; intros X v row Hin; simpl in Hin; [tauto|].
  destruct X as [|x X]; simpl in Hin; [tauto|].
  destruct Hin as [[= <- <-] | Hin].
  - exists o, x. simpl. auto.
  - destruct (IH X v row Hin) as (o' & x' & H1 & H2 & H3).
    exists o', x'. simpl. auto.
Qed.

Lemma combine_fst {A B} (l : list A) (k : list B) :
  (length l <= length k)%nat -> map fst (combine l k) = l.
Proof.
  revert k. induction l as [|a l IH]; intros [|b k] H; simpl in *;
    try reflexivity; try lia.
  rewrite IH by lia. reflexivity.
Qed.

Lemma rows_at_bound (T : matrix) (ids : list nat) (old : matrix) :
  rows_at T ids = Some old ->
  Forall (fun t => (t < length T)%nat) ids /\ length old = length ids.
Proof.
  intros H. apply mapM_Some_1 in H.
  induction H as [|t o ids old Ht _ [IH1 IH2]]; simpl; [auto|].
  split; [|lia]. constructor; [|exact IH1]. eapply lookup_lt_Some, Ht.
Qed.

Lemma scatter_add_lookup (T : matrix) (ids : list nat) (X T' : matrix) :
  scatter_add T ids X = Some T' ->
  length T' = length T
  /\ (forall v r, T' !! v = Some r ->
        T !! v = Some r
        \/ exists o x, T !! v = Some o /\ In x X /\ r = vadd o x)
  /\ (length X = length ids ->
      forall v, In v ids ->
        exists o x, T !! v = Some o /\ In x X /\ T' !! v = Some (vadd o x)).
Proof.
  unfold scatter_add. destruct (rows_at T ids) as [old|] eqn:Hold; [|discriminate].
  simpl. intros [= <-].
  set (ps := combine ids (map (fun p => vadd (fst p) (snd p)) (combine old X))).
  destruct (rows_at_bound T ids old Hold) as [Hbound Hlen].
  split; [apply fold_insert_length|]. split.
  - intros v r Hr.
    destruct (in_dec Nat.eq_dec v (map fst ps)) as [Hin | Hout].
    + assert (Hv : (v < length T)%nat).
      { apply lookup_lt_Some in Hr. rewrite fold_insert_length in Hr. exact Hr. }
      destruct (fold_insert_written ps T v Hin Hv) as (row & H1 & H2).
      right. rewrite Hr in H2. injection H2 as ->.
      apply (scatter_pairs T ids old X Hold v row H1).
    + left. rewrite <- Hr. symmetry. apply fold_insert_other, Hout.
  - intros HX v Hv.
    assert (Hfst : map fst ps = ids).
    { unfold ps. apply combine_fst.
      rewrite length_map, length_combine. lia. }
    assert (Hl : (v < length T)%nat).
    { rewrite List.Forall_forall in Hbound. apply Hbound, Hv. }
    destruct (fold_insert_written ps T v) as (row & H1 & H2);
      [rewrite Hfst; exact Hv | exact Hl |].
    destruct (scatter_pairs T ids old X Hold v row H1) as (o & x & Ho & Hx & ->).
    exists o, x. auto.
Qed.

Lemma vadd_positive (o x : vec) :
  Forall (fun a => 0 <= a) o -> all_positive x -> all_positive (vadd o x).
Proof.
  unfold all_positive, vadd, vmap2. intros Ho. revert x.
  induction Ho as [|a o Ha _ IH]; intros x Hx; simpl; [constructor|].
  destruct Hx as [|b x Hb Hx]; simpl; constructor; [lra | apply IH, Hx].
Qed.

Lemma positive_nonneg (r : vec) : all_positive r -> Forall (fun a => 0 <= a) r.
Proof. intros H. eapply Forall_impl; [exact H|]. simpl. intros; lra. Qed.

Lemma scatter_add_inv (k : nat) (T : matrix) (ids : list nat) (X T' : matrix) :
  rows_of_width k T -> nonneg_table T ->
  rows_of_width k X -> positive_table X -> length X = length ids ->
  scatter_add T ids X = Some T' ->
  length T' = length T
  /\ rows_of_width k T'
  /\ nonneg_table T'
  /\ (forall v, positive_row T v -> positive_row T' v)
  /\ (forall v, In v ids -> positive_row T' v).
Proof.
  intros HwT HnT HwX HpX HlX Hs.
  destruct (scatter_add_lookup T ids X T' Hs) as (Hlen & Hany & Hids).
  unfold rows_of_width, nonneg_table, positive_table in *.
  rewrite Forall_lookup in HwT, HnT. rewrite List.Forall_forall in HwX, HpX.
  assert (Hrow : forall v r, T' !! v = Some r ->
            length r = k /\ Forall (fun a => 0 <= a) r
            /\ (positive_row T v -> all_positive r)).
  { intros v r Hr. destruct (Hany v r Hr) as [Hsame | (o & x & Ho & Hx & ->)].
    - repeat split; eauto. intros (r' & Hr' & Hp). congruence.
    - repeat split.
      + rewrite vadd_length, (HwT v o Ho), (HwX x Hx). lia.
      + apply positive_nonneg, vadd_positive; eauto.
      + intros _. apply vadd_positive; eauto. }
  split; [exact Hlen|]. split; [|split; [|split]].
  - apply Forall_lookup. intros v r Hr. apply (Hrow v r Hr).
  - apply Forall_lookup. intros v r Hr. apply (Hrow v r Hr).
  - intros v Hv. destruct Hv as (r & Hr & Hp).
    assert (Hlt : (v < length T')%nat)
      by (rewrite Hlen; eapply lookup_lt_Some, Hr).
    destruct (lookup_lt_is_Some_2 _ _ Hlt) as [r' Hr'].
    exists r'. split; [exact Hr'|]. apply (Hrow v r' Hr'). exists r. auto.
  - intros v Hv. destruct (Hids HlX v Hv) as (o & x & Ho & Hx & Hv').
    exists (vadd o x). split; [exact Hv'|]. apply vadd_positive; eauto.
Qed.

(** ** Shapes through the E-step *)

Lemma mexp_positive (m : matrix) : positive_table (mexp m).
Proof.
  unfold positive_table, mexp, all_positive.
  apply Forall_map, Forall_true. intros r. apply Forall_map, Forall_true.
  intros x. apply exp_pos.
Qed.

Lemma mexp_width (k : nat) (m : matrix) :
  rows_of_width k m -> rows_of_width k (mexp m).
Proof.
  unfold rows_of_width, mexp. intros H. apply Forall_map.
  eapply Forall_impl; [exact H|]. intros r Hr. simpl. rewrite length_map. exact Hr.
Qed.

Section EStepShapes.

Variable psi : R -> R.
Variable cfg : config.

Lemma phi_contribution_shape (k : nat) (beta_rows : matrix) (gamma_d counts : vec) :
  rows_of_width k beta_rows -> length gamma_d = k ->
  length counts = length beta_rows ->
  let phi := count_weighted (log_phi psi beta_rows gamma_d) counts in
  rows_of_width k phi /\ length phi = length beta_rows.
Proof.
  intros Hb Hg Hc. cbv zeta. unfold count_weighted, log_phi, rows_of_width. split.
  - apply Forall_map. apply List.Forall_forall. intros [r c] Hin. simpl.
    apply in_combine_l, in_map_iff in Hin. destruct Hin as (b & <- & Hb').
    rewrite !length_map, vadd_length, length_map, Hg.
    unfold rows_of_width in Hb. rewrite List.Forall_forall in Hb.
    rewrite (Hb b Hb'). lia.
  - rewrite length_map, length_combine, length_map. lia.
Qed.

Section OneDocument.

Variable s0 : model.
Variable doc : nat.
Variable fd : freqdist.

Hypothesis alpha_width : length (_alpha s0) = _K s0.
Hypothesis beta_width : rows_of_width (_K s0) (_beta s0).

Lemma phi_iteration_inv (g : matrix) st' phi mc :
  doc_row_shaped s0 doc g ->
  phi_iteration psi (set_gamma s0 g) doc fd = Some (st', phi, mc) ->
  exists g', st' = set_gamma s0 g' /\ length g' = length g
             /\ doc_row_shaped s0 doc g' /\ phi_shaped s0 fd phi.
Proof.
  intros Hg. unfold phi_iteration. simpl.
  destruct (rows_at_array (_beta s0) (term_ids fd)) as [beta_rows|] eqn:Hb0;
    [|discriminate].
  apply rows_at_array_Some in Hb0 as [Hterms Hb].
  simpl. destruct (g !! doc) as [gd|] eqn:Hd; [|discriminate]. simpl.
  intros [= <- <- _].
  destruct (rows_at_bound _ _ _ Hb) as [_ Hlen].
  assert (Hrows : rows_of_width (_K s0) beta_rows).
  { clear Hterms. apply mapM_Some_1 in Hb. unfold rows_of_width in *.
    rewrite Forall_lookup in beta_width.
    induction Hb; constructor; eauto. }
  destruct (phi_contribution_shape (_K s0) beta_rows gd (term_counts fd) Hrows (Hg gd Hd))
    as [Hw Hl].
  { unfold term_counts. rewrite length_map, Hlen. unfold term_ids.
    rewrite length_map. reflexivity. }
  eexists. split; [reflexivity|]. split; [apply length_insert|]. split.
  - intros gd' Hgd'. apply list_lookup_insert_Some in Hgd'.
    destruct Hgd' as [(_ & <- & _) | (Hne & _)]; [|congruence].
    rewrite vadd_length, alpha_width, colsum_length; [lia|].
    apply mexp_width, Hw.
  - split; [exact Hw|]. rewrite Hl, Hlen. unfold term_ids. apply length_map.
Qed.

Lemma gamma_loop_inv (n : nat) :
  forall (g : matrix) (last : option matrix) st' phi,
    doc_row_shaped s0 doc g ->
    (forall p, last = Some p -> phi_shaped s0 fd p) ->
    gamma_loop psi cfg n (set_gamma s0 g) doc fd last = Some (st', phi) ->
    exists g', st' = set_gamma s0 g' /\ length g' = length g /\ phi_shaped s0 fd phi.
Proof.
  induction n as [|n IH]; intros g last st' phi Hg Hlast; simpl.
  - destruct last as [p|]; simpl; [|discriminate].
    intros [= <- <-]. exists g. auto.
  - destruct (phi_iteration psi (set_gamma s0 g) doc fd) as [[[st1 phi1] mc]|] eqn:E;
      simpl; [|discriminate].
    destruct (phi_iteration_inv g st1 phi1 mc Hg E) as (g1 & -> & Hl1 & Hg1 & Hp1).
    destruct (Rleb mc (gamma_converge_threshold cfg)).
    + intros [= <- <-]. exists g1. auto.
    + intros Hloop.
      destruct (IH g1 (Some phi1) st' phi Hg1) as (g' & -> & Hl' & Hp'); auto.
      * intros p [= <-]. exact Hp1.
      * exists g'. split; [reflexivity|]. split; [congruence | exact Hp'].
Qed.

Lemma update_phi_inv (g : matrix) st' L :
  data_get (_data s0) doc = Some fd ->
  rows_of_width (_K s0) (_phi_table s0) ->
  nonneg_table (_phi_table s0) ->
  doc_row_shaped s0 doc g ->
  update_phi psi cfg (set_gamma s0 g) doc = Some (st', L) ->
  exists g' T',
    st' = set_phi_table (set_gamma s0 g') T'
    /\ length g' = length g
    /\ length T' = length (_phi_table s0)
    /\ rows_of_width (_K s0) T'
    /\ nonneg_table T'
    /\ (forall v, positive_row (_phi_table s0) v -> positive_row T' v)
    /\ (forall v, In v (term_ids fd) ->
          positive_row T' v /\ (v < length (_beta s0))%nat).
Proof.
  intros Hdata HwT HnT Hg. unfold update_phi. simpl. rewrite Hdata. simpl.
  destruct (gamma_loop psi cfg (gamma_maximum_iteration cfg) (set_gamma s0 g) doc fd None)
    as [[st1 phi]|] eqn:Eloop; simpl; [|discriminate].
  destruct (gamma_loop_inv (gamma_maximum_iteration cfg) g None st1 phi Hg)
    as (g1 & -> & Hl1 & Hw & Hl);
    [discriminate | exact Eloop |].
  simpl.
  destruct (rows_at (_beta s0) (term_ids fd)) as [beta_rows|] eqn:Hb; [|discriminate].
  simpl.
  destruct (scatter_add (_phi_table s0) (term_ids fd) (mexp phi)) as [T'|] eqn:Hs;
    [|discriminate].
  simpl. intros [= <- _].
  destruct (scatter_add_inv (_K s0) (_phi_table s0) (term_ids fd) (mexp phi) T')
    as (H1 & H2 & H3 & H4 & H5); auto.
  { apply mexp_width, Hw. }
  { apply mexp_positive. }
  { unfold mexp, term_ids. rewrite !length_map. exact Hl. }
  exists g1, T'. repeat split; auto.
  destruct (rows_at_bound _ _ _ Hb) as [Hbound _].
  rewrite List.Forall_forall in Hbound. auto.
Qed.

End OneDocument.

(** The invariant of the loop over the documents: the table keeps its shape,
    stays non-negative, and the rows of the terms met so far are positive. *)
Lemma e_step_doc_inv (st : model) (doc : nat) st' L :
  length (_alpha st) = _K st ->
  rows_of_width (_K st) (_beta st) ->
  rows_of_width (_K st) (_phi_table st) ->
  nonneg_table (_phi_table st) ->
  e_step_doc psi cfg st doc = Some (st', L) ->
  exists fd g' T',
    data_get (_data st) doc = Some fd
    /\ st' = set_phi_table (set_gamma st g') T'
    /\ length T' = length (_phi_table st)
    /\ rows_of_width (_K st) T'
    /\ nonneg_table T'
    /\ (forall v, positive_row (_phi_table st) v -> positive_row T' v)
    /\ (forall v, In v (term_ids fd) ->
          positive_row T' v /\ (v < length (_beta st))%nat).
Proof.
  intros Ha Hb HwT HnT. unfold e_step_doc.
  destruct (data_get (_data st) doc) as [fd|] eqn:Hd; [|discriminate]. simpl.
  destruct (_K st =? 0)%nat; [discriminate|].
  destruct (doc <? length (_gamma st))%nat eqn:Hlt; [|discriminate].
  apply Nat.ltb_lt in Hlt. intros Hup.
  set (fresh := map (fun a => a + INR (freq_N fd) / INR (_K st)) (_alpha st)) in *.
  assert (Hrow : doc_row_shaped st doc (<[doc := fresh]> (_gamma st))).
  { intros gd Hgd. rewrite list_lookup_insert_eq in Hgd by exact Hlt.
    injection Hgd as <-. unfold fresh. rewrite length_map. exact Ha. }
  destruct (update_phi_inv st doc fd Ha Hb _ st' L Hd HwT HnT Hrow Hup)
    as (g' & T' & -> & _ & H).
  exists fd, g', T'. auto.
Qed.

Lemma e_step_pass_inv (docs : list nat) :
  forall (st : model) (acc : R) st' L,
    length (_alpha st) = _K st ->
    rows_of_width (_K st) (_beta st) ->
    rows_of_width (_K st) (_phi_table st) ->
    nonneg_table (_phi_table st) ->
    e_step_pass psi cfg docs st acc = Some (st', L) ->
    exists g' T',
      st' = set_phi_table (set_gamma st g') T'
      /\ length T' = length (_phi_table st)
      /\ rows_of_width (_K st) T'
      /\ nonneg_table T'
      /\ (forall v, positive_row (_phi_table st) v -> positive_row T' v)
      /\ (forall d fd v, In d docs -> data_get (_data st) d = Some fd ->
            In v (term_ids fd) ->
            positive_row T' v /\ (v < length (_beta st))%nat).
Proof.
  induction docs as [|doc docs IH]; intros st acc st' L Ha Hb HwT HnT; simpl.
  - intros [= <- _]. exists (_gamma st), (_phi_table st).
    repeat split; auto; try tauto. destruct st; reflexivity.
  - destruct (e_step_doc psi cfg st doc) as [[st1 L1]|] eqn:E; simpl; [|discriminate].
    destruct (e_step_doc_inv st doc st1 L1 Ha Hb HwT HnT E)
      as (fd & g1 & T1 & Hd & -> & Hl1 & Hw1 & Hn1 & Hkeep1 & Hnew1).
    intros Hpass.
    destruct (IH (set_phi_table (set_gamma st g1) T1) _ st' L Ha Hb Hw1 Hn1 Hpass)
      as (g' & T' & -> & Hl' & Hw' & Hn' & Hkeep' & Hnew').
    exists g', T'. simpl in *.
    split; [reflexivity|]. split; [congruence|]. split; [exact Hw'|].
    split; [exact Hn'|]. split; [auto|].
    intros d fd' v [<- | Hin] Hd' Hv.
    + rewrite Hd in Hd'. injection Hd' as <-.
      destruct (Hnew1 v Hv) as [Hp Hlt]. split; [apply Hkeep', Hp | exact Hlt].
    + apply (Hnew' d fd' v Hin Hd' Hv).
Qed.

End EStepShapes.

(** ** The vocabulary covers the rows of the table *)

Lemma full_range (l : list nat) (n : nat) :
  NoDup l -> Forall (fun x => (x < n)%nat) l -> length l = n ->
  forall v, (v < n)%nat -> In v l.
Proof.
  intros Hnd Hlt Hlen v Hv.
  apply NoDup_ListNoDup in Hnd.
  apply (NoDup_length_incl Hnd (l' := seq 0 n)).
  - rewrite length_seq. lia.
  - intros x Hx. rewrite List.Forall_forall in Hlt. apply in_seq.
    specialize (Hlt x Hx). lia.
  - apply in_seq. lia.
Qed.

Lemma vocab_of_spec (data : corpus) (v : nat) :
  In v (vocab_of data) <-> exists d fd, In (d, fd) data /\ In v (term_ids fd).
Proof.
  unfold vocab_of. rewrite <- list_elem_of_In, elem_of_remove_dups, list_elem_of_In.
  rewrite in_concat. split.
  - intros (ids & Hids & Hv). apply in_map_iff in Hids.
    destruct Hids as ([d fd] & <- & Hin). eauto.
  - intros (d & fd & Hin & Hv). exists (term_ids fd). split; [|exact Hv].
    apply in_map_iff. exists (d, fd). auto.
Qed.

Lemma data_get_in (data : corpus) (d : nat) (fd : freqdist) :
  NoDup (map fst data) -> In (d, fd) data -> data_get data d = Some fd.
Proof.
  induction data as [|[d' fd'] data IH]; simpl; [tauto|].
  intros Hnd [[= -> ->] | Hin].
  - rewrite Nat.eqb_refl. reflexivity.
  - apply NoDup_cons in Hnd as [Hout Hnd].
    destruct (Nat.eqb_spec d' d) as [-> | _]; [|auto].
    exfalso. apply Hout. apply list_elem_of_In.
    change d with (fst (d, fd)). apply in_map, Hin.
Qed.

Lemma zeros_shape (k v : nat) :
  rows_of_width k (repeat (repeat 0 k) v) /\ nonneg_table (repeat (repeat 0 k) v).
Proof.
  unfold rows_of_width, nonneg_table. split; apply List.Forall_forall;
    intros r Hr; apply repeat_spec in Hr; subst r.
  - apply repeat_length.
  - apply List.Forall_forall. intros x Hx. apply repeat_spec in Hx. lra.
Qed.

Lemma vadd_positive_l (r c : vec) :
  all_positive r -> Forall (fun a => 0 <= a) c -> all_positive (vadd r c).
Proof.
  unfold all_positive, vadd, vmap2. intros Hr. revert c.
  induction Hr as [|a r Ha _ IH]; intros c Hc; simpl; [constructor|].
  destruct Hc as [|b c Hb Hc]; simpl; constructor; [lra | apply IH, Hc].
Qed.

Lemma vadd_nonneg (r c : vec) :
  Forall (fun a => 0 <= a) r -> Forall (fun a => 0 <= a) c ->
  Forall (fun a => 0 <= a) (vadd r c).
Proof.
  unfold vadd, vmap2. intros Hr. revert c.
  induction Hr as [|a r Ha _ IH]; intros c Hc; simpl; [constructor|].
  destruct Hc as [|b c Hb Hc]; simpl; constructor; [lra | apply IH, Hc].
Qed.

Lemma colsum_nonneg (k : nat) (m : matrix) :
  nonneg_table m -> Forall (fun a => 0 <= a) (colsum k m).
Proof.
  unfold colsum. induction 1 as [|r m Hr _ IH]; simpl.
  - apply List.Forall_forall. intros x Hx. apply repeat_spec in Hx. lra.
  - apply vadd_nonneg; assumption.
Qed.

Lemma colsum_positive (k : nat) (m : matrix) :
  positive_table m -> m <> [] -> all_positive (colsum k m).
Proof.
  intros Hp Hne. destruct Hp as [|r m Hr Hm]; [congruence|].
  unfold colsum. simpl. apply vadd_positive_l; [exact Hr|].
  apply colsum_nonneg. unfold nonneg_table.
  eapply Forall_impl; [exact Hm|]. intros; apply positive_nonneg; assumption.
Qed.

Section MStepFacts.

Variable psi : R -> R.
Variable polygamma : nat -> R -> R.
Variable gammaln : R -> R.
Variable cfg : config.

(** What [inference] leaves in [self._phi_table] and [self._beta]. *)
Lemma inference_tables (st st' : model) (L : R) :
  inference psi polygamma gammaln cfg st = Some (st', L) ->
  exists st1 acc,
    e_step_pass psi cfg (map fst (_data st))
      (set_phi_table st (repeat (repeat 0 (_K st)) (_V st))) 0 = Some (st1, acc)
    /\ _K st' = _K st1
    /\ _phi_table st' = _phi_table st1
    /\ _beta st' = _beta (m_step st1).
Proof.
  unfold inference. cbv zeta. simpl.
  destruct (e_step_pass _ _ _ _ _) as [[st1 acc]|] eqn:E; simpl; [|discriminate].
  destruct (update_alpha _ _ _ _ _) as [st3|] eqn:U; simpl; [|discriminate].
  apply update_alpha_form in U as [a ->].
  intros [= <- _]. exists st1, acc. auto.
Qed.

(** After the pass over the documents the table has its [V] rows of [K]
    columns, and every entry is positive: each term of the vocabulary occurs in
    a document, and each occurrence adds an exponential. *)
Lemma inference_phi_table (st st' : model) (L : R) :
  well_shaped st ->
  NoDup (map fst (_data st)) ->
  _V st = length (vocab_of (_data st)) ->
  inference psi polygamma gammaln cfg st = Some (st', L) ->
  exists st1,
    _K st' = _K st /\ _K st1 = _K st
    /\ _phi_table st' = _phi_table st1
    /\ _beta st' = _beta (m_step st1)
    /\ length (_phi_table st1) = _V st
    /\ rows_of_width (_K st) (_phi_table st1)
    /\ positive_table (_phi_table st1).
Proof.
  intros [Ha HV Hb] Hnd Hvoc Hinf.
  destruct (inference_tables st st' L Hinf) as (st1 & acc & Hpass & HK & HT & HB).
  destruct (zeros_shape (_K st) (_V st)) as [Hz1 Hz2].
  destruct (e_step_pass_inv psi cfg (map fst (_data st))
              (set_phi_table st (repeat (repeat 0 (_K st)) (_V st))) 0
              st1 acc Ha Hb Hz1 Hz2 Hpass)
    as (g' & T' & -> & Hlen & Hw & Hn & _ & Hnew).
  exists (set_phi_table
            (set_gamma (set_phi_table st (repeat (repeat 0 (_K st)) (_V st))) g') T').
  simpl in *. rewrite repeat_length in Hlen.
  split; [exact HK|]. split; [reflexivity|]. split; [exact HT|].
  split; [exact HB|]. split; [exact Hlen|]. split; [exact Hw|].
  (* every row of the table belongs to a term of some document *)
  assert (Hterm : forall v, In v (vocab_of (_data st)) ->
            positive_row T' v /\ (v < _V st)%nat).
  { intros v Hv. apply vocab_of_spec in Hv. destruct Hv as (d & fd & Hin & Hv).
    rewrite <- HV. apply (Hnew d fd v); auto.
    - change d with (fst (d, fd)). apply in_map, Hin.
    - apply data_get_in; assumption. }
  unfold positive_table. apply Forall_lookup. intros v r Hr.
  assert (Hv : (v < _V st)%nat) by (rewrite <- Hlen; eapply lookup_lt_Some, Hr).
  assert (Hin : In v (vocab_of (_data st))).
  { apply (full_range _ (_V st)); auto.
    - apply NoDup_remove_dups.
    - apply List.Forall_forall. intros x Hx. apply (Hterm x Hx). }
  destruct (Hterm v Hin) as [(r' & Hr' & Hp) _]. congruence.
Qed.

Lemma inference_column_sums_positive (st st' : model) (L : R) :
  well_shaped st ->
  NoDup (map fst (_data st)) ->
  _V st = length (vocab_of (_data st)) ->
  inference psi polygamma gammaln cfg st = Some (st', L) ->
  (1 <= _V st)%nat ->
  all_positive (colsum (_K st') (_phi_table st')).
Proof.
  intros Hws Hnd Hvoc Hinf HV1.
  destruct (inference_phi_table st st' L Hws Hnd Hvoc Hinf)
    as (st1 & HK & HK1 & HT & HB & Hlen & Hw & Hp).
  rewrite HK, HT. apply colsum_positive; auto.
  intros E. rewrite E in Hlen. simpl in Hlen. lia.
Qed.


End MStepFacts.

(** ** The theorems at concrete inputs

    [fun x => x] and [fun _ x => 2 / x] stand in for [psi] and [polygamma]:
    they meet the four hypotheses made on the values at 1 and 2. *)

Lemma update_alpha_loses_positivity_witness :
  all_positive (_alpha newton_example) /\
  exists st',
    update_alpha (fun x => x) (fun _ x => 2 / x) default_config newton_example [-10; -10]
    = Some st'
    /\ all_negative (_alpha st').
Proof.
  apply (update_alpha_loses_positivity (fun x => x) (fun _ x => 2 / x)); lra.
Defined.

Lemma example_divisors : divisors_nonzero (fun _ x => 2 / x) 1 [1; 1].
Proof.
  unfold divisors_nonzero, alpha_hessian, newton_z, sum_1_h, alpha_hessian. simpl.
  split; [|split].
  - constructor; [lra|]. constructor; [lra|]. constructor.
  - lra.
  - assert (E : 1 / (1 * (2 / (1 + (1 + 0)))) + 1 / (- (1) * (2 / 1)) = 1 / 2)
      by (field; lra).
    constructor; [cbv beta; lra|]. constructor; [cbv beta; lra|]. constructor.
Qed.


Lemma initialize_alpha_positive_witness :
  all_positive
    (_alpha {| _K := 2; _D := 1; _V := 1;
               _data := [(0%nat, [(0%nat, 1%positive)])];
               _alpha := map (fun u => u / INR 2) [1 / 4; 1 / 2];
               _gamma := repeat (map (fun a => a + INR 1 / INR 2)
                                    (map (fun u => u / INR 2) [1 / 4; 1 / 2])) 1;
               _beta := map (map (fun u => ln (1 / INR 1 + u))) [[1 / 2; 1 / 2]];
               _phi_table := [] |}).
Proof.
  apply (initialize_alpha_positive [(0%nat, [(0%nat, 1%positive)])] 2
           [1 / 4; 1 / 2] [[1 / 2; 1 / 2]]).
  - reflexivity.
  - repeat constructor; lra.
Defined.

Lemma backoff_branch_is_inverted_witness :
  let alpha := [1; 1] in
  let refused := step_size (fun x => x) (fun _ x => 2 / x) default_config 1 [0; 0] alpha 0 in
  let accepted :=
    step_size (fun x => x) (fun _ x => 2 / x) default_config 1 [-10; -10] alpha 0 in
  (Forall2 (fun a s => s < a) alpha refused /\ any_ge alpha refused = true)
  /\ (Forall2 (fun a s => s >= a) alpha accepted /\ any_ge alpha accepted = false)
  /\ update_alpha (fun x => x) (fun _ x => 2 / x) default_config newton_example [0; 0]
     = Some newton_example.
Proof.
  apply (backoff_branch_is_inverted (fun x => x) (fun _ x => 2 / x)); lra.
Defined.

Lemma newton_c_is_not_the_scalar_witness :
  Forall (fun c => c <> c_spec (fun x => x) (fun _ x => 2 / x) 1 [-10; -10] [1; 1])
         (newton_c (fun x => x) (fun _ x => 2 / x) 1 [-10; -10] [1; 1]).
Proof.
  apply (newton_c_is_not_the_scalar (fun x => x) (fun _ x => 2 / x)); lra.
Defined.




(** * Further properties of the code *)

(** ** What [update_phi] leaves alone *)

Lemma rows_at_total (m : matrix) (ids : list nat) :
  Forall (fun t => (t < length m)%nat) ids -> is_Some (rows_at m ids).
Proof.
  intros H. apply mapM_is_Some_2. eapply Forall_impl; [exact H|].
  intros t Ht. simpl. apply lookup_lt_is_Some_2, Ht.
Qed.

Lemma set_gamma_same st : set_gamma st (_gamma st) = st.
Proof. destruct st; reflexivity. Qed.

Section EStepFrame.

Variable psi : R -> R.
Variable cfg : config.

Lemma phi_iteration_form st doc fd st' phi mc :
  phi_iteration psi st doc fd = Some (st', phi, mc) ->
  (doc < length (_gamma st))%nat
  /\ Forall (fun t => (t < length (_beta st))%nat) (term_ids fd)
  /\ exists row, st' = set_gamma st (<[doc := row]> (_gamma st)).
Proof.
  unfold phi_iteration.
  destruct (rows_at_array (_beta st) (term_ids fd)) as [beta_rows|] eqn:Hb0;
    [|discriminate].
  apply rows_at_array_Some in Hb0 as [Hterms Hb].
  simpl. destruct (_gamma st !! doc) as [gd|] eqn:Hd; [|discriminate]. simpl.
  intros [= <- _ _]. split; [eapply lookup_lt_Some, Hd|].
  split; [apply (rows_at_bound _ _ _ Hb)|]. eauto.
Qed.

(** The loop over [gamma_iteration] writes row [doc_id] of [self._gamma] and
    nothing else. *)
Lemma gamma_loop_form (n : nat) :
  forall st doc fd last st' phi,
    gamma_loop psi cfg n st doc fd last = Some (st', phi) ->
    st' = st \/ exists row, st' = set_gamma st (<[doc := row]> (_gamma st)).
Proof.
  induction n as [|n IH]; intros st doc fd last st' phi; simpl.
  - destruct last; simpl; [|discriminate]. intros [= <- _]. auto.
  - destruct (phi_iteration psi st doc fd) as [[[st1 phi1] mc]|] eqn:E; simpl;
      [|discriminate].
    destruct (phi_iteration_form _ _ _ _ _ _ E) as (_ & _ & row & ->).
    destruct (Rleb mc (gamma_converge_threshold cfg)).
    + intros [= <- _]. eauto.
    + intros H. apply IH in H. right. destruct H as [-> | (row' & ->)]; [eauto|].
      simpl. rewrite list_insert_insert_eq. eauto.
Qed.

Lemma in_combine_fst {A B} (l : list A) (k : list B) (x : A) :
  In x (map fst (combine l k)) -> In x l.
Proof.
  intros H. apply in_map_iff in H. destruct H as ([a b] & <- & H).
  simpl. eapply in_combine_l, H.
Qed.

Lemma update_phi_form st doc st' L :
  update_phi psi cfg st doc = Some (st', L) ->
  exists fd g' T',
    data_get (_data st) doc = Some fd
    /\ st' = set_phi_table (set_gamma st g') T'
    /\ length g' = length (_gamma st)
    /\ (forall i, i <> doc -> g' !! i = _gamma st !! i)
    /\ length T' = length (_phi_table st)
    /\ (forall v, ~ In v (term_ids fd) -> T' !! v = _phi_table st !! v).
Proof.
  unfold update_phi.
  destruct (data_get (_data st) doc) as [fd|] eqn:Hd; [|discriminate]. simpl.
  destruct (gamma_loop psi cfg (gamma_maximum_iteration cfg) st doc fd None)
    as [[st1 phi]|] eqn:Eloop; simpl; [|discriminate].
  assert (Hg : exists g', st1 = set_gamma st g' /\ length g' = length (_gamma st)
                          /\ forall i, i <> doc -> g' !! i = _gamma st !! i).
  { destruct (gamma_loop_form _ _ _ _ _ _ _ Eloop) as [-> | (row & ->)].
    - exists (_gamma st). rewrite set_gamma_same. auto.
    - eexists. split; [reflexivity|]. split; [apply length_insert|].
      intros i Hi. apply list_lookup_insert_ne. auto. }
  destruct Hg as (g' & -> & Hlen & Hother). simpl.
  destruct (rows_at (_beta st) (term_ids fd)); [|discriminate]. simpl.
  destruct (scatter_add (_phi_table st) (term_ids fd) (mexp phi)) as [T'|] eqn:Hs;
    [|discriminate].
  simpl. intros [= <- _]. exists fd, g', T'.
  repeat (split; [solve [auto]|]).
  unfold scatter_add in Hs. destruct (rows_at (_phi_table st) (term_ids fd)); [|discriminate].
  simpl in Hs. injection Hs as <-. split; [apply fold_insert_length|].
  intros v Hv. apply fold_insert_other. intros Hin. apply Hv.
  eapply in_combine_fst, Hin.
Qed.

End EStepFrame.

(** ** The row of [self._gamma] that [update_phi] leaves *)

Lemma vsum_vadd (u v : vec) :
  length u = length v -> vsum (vadd u v) = vsum u + vsum v.
Proof.
  unfold vadd, vmap2. revert v.
  induction u as [|a u IH]; intros [|b v] H; simpl in *; try discriminate; [lra|].
  rewrite IH by lia. lra.
Qed.

Lemma vsum_colsum (k : nat) (m : matrix) :
  rows_of_width k m -> vsum (colsum k m) = msum m.
Proof.
  unfold msum. induction 1 as [|r m Hr Hm IH]; simpl.
  - apply vsum_zeros.
  - fold (colsum k m). rewrite vsum_vadd, IH; [reflexivity|].
    rewrite colsum_length by exact Hm. exact Hr.
Qed.

Lemma vsum_term_counts (fd : freqdist) : vsum (term_counts fd) = INR (freq_N fd).
Proof.
  unfold term_counts, freq_N. induction fd as [|[t c] fd IH]; simpl; [reflexivity|].
  rewrite IH, plus_INR. reflexivity.
Qed.

Lemma term_counts_positive (fd : freqdist) : all_positive (term_counts fd).
Proof.
  unfold all_positive, term_counts. apply Forall_map, Forall_true.
  intros [t c]. simpl. apply lt_0_INR, Pos2Nat.is_pos.
Qed.

(** A normalised row, weighted by the count [c], has exponentials that sum to
    [c]. *)
Lemma weighted_row_sum (u : vec) (c : R) :
  u <> [] -> 0 < c ->
  vsum (map exp (map (fun x => x + ln c)
                     (map (fun x => x - ln (vsum (map exp u))) u))) = c.
Proof.
  intros Hu Hc. rewrite !map_map.
  rewrite (map_ext _ (fun x => exp (x - ln (vsum (map exp u))) * c)).
  - rewrite <- (map_map (fun x => exp (x - ln (vsum (map exp u)))) (fun e => e * c)).
    rewrite vsum_map_scale.
    rewrite <- (map_map (fun x => x - ln (vsum (map exp u))) exp).
    rewrite log_sum_exp_normalised by exact Hu. lra.
  - intros x. rewrite exp_plus, exp_ln by exact Hc. reflexivity.
Qed.

Section GammaMass.

Variable psi : R -> R.

(** The count-weighted [phi_contribution] of a document has the mass of the
    document: its exponentials sum to the number of tokens. *)
Lemma phi_contribution_mass (beta_rows : matrix) (gamma_d : vec) (fd : freqdist) :
  gamma_d <> [] ->
  Forall (fun b => b <> []) beta_rows ->
  length beta_rows = length fd ->
  msum (mexp (count_weighted (log_phi psi beta_rows gamma_d) (term_counts fd)))
  = INR (freq_N fd).
Proof.
  intros Hg Hb Hl. rewrite <- vsum_term_counts.
  pose proof (term_counts_positive fd) as Hpos.
  assert (Hl' : length beta_rows = length (term_counts fd))
    by (unfold term_counts; rewrite length_map; exact Hl).
  clear Hl. unfold msum, mexp, count_weighted, log_phi.
  revert Hb Hl' Hpos. generalize (term_counts fd). intros counts Hb.
  revert counts. induction Hb as [|b rows Hne _ IH]; intros [|c counts] Hl Hpos;
    simpl in *; try discriminate; [reflexivity|].
  apply Forall_cons in Hpos as [Hc Hpos].
  rewrite IH by (auto; lia). f_equal.
  apply weighted_row_sum; [|exact Hc].
  intros E. apply (f_equal (@length R)) in E.
  rewrite vadd_length, length_map in E. simpl in E.
  destruct b; [congruence|]. destruct gamma_d; [congruence|]. discriminate.
Qed.

End GammaMass.

Lemma rows_at_width (k : nat) (m : matrix) (ids : list nat) (rows : matrix) :
  rows_of_width k m -> rows_at m ids = Some rows -> rows_of_width k rows.
Proof.
  intros Hm H. apply mapM_Some_1 in H. unfold rows_of_width in *.
  rewrite Forall_lookup in Hm. induction H; constructor; eauto.
Qed.

Section GammaRow.

Variable psi : R -> R.
Variable cfg : config.
Variable s0 : model.
Variable doc : nat.
Variable fd : freqdist.

Hypothesis alpha_width : length (_alpha s0) = _K s0.
Hypothesis beta_width : rows_of_width (_K s0) (_beta s0).

Lemma phi_iteration_shaped (g : matrix) st' phi mc :
  doc_row_shaped s0 doc g ->
  phi_iteration psi (set_gamma s0 g) doc fd = Some (st', phi, mc) ->
  exists row,
    round_of psi s0 fd phi row
    /\ (doc < length g)%nat
    /\ st' = set_gamma s0 (<[doc := row]> g).
Proof.
  intros Hg. unfold phi_iteration. simpl.
  destruct (rows_at_array (_beta s0) (term_ids fd)) as [beta_rows|] eqn:Hb0;
    [|discriminate].
  apply rows_at_array_Some in Hb0 as [Hterms Hb].
  simpl. destruct (g !! doc) as [gd|] eqn:Hd; [|discriminate]. simpl.
  intros [= <- <- _]. eexists. split; [|split; [eapply lookup_lt_Some, Hd | reflexivity]].
  exists beta_rows, gd. repeat split; auto.
Qed.

Lemma round_of_width phi row : round_of psi s0 fd phi row -> length row = _K s0.
Proof.
  intros (beta_rows & gd & Hb & Hg & -> & ->).
  destruct (rows_at_bound _ _ _ Hb) as [_ Hlen].
  destruct (phi_contribution_shape psi (_K s0) beta_rows gd (term_counts fd))
    as [Hw _]; auto.
  - eapply rows_at_width; eauto.
  - unfold term_counts, term_ids in *. rewrite length_map in *. congruence.
  - rewrite vadd_length, alpha_width, colsum_length; [lia|]. apply mexp_width, Hw.
Qed.

(** When the loop returns after a round, row [doc_id] of [self._gamma] is the
    [gamma_update] computed from the [phi_contribution] it returns. *)
Lemma gamma_loop_shaped (n : nat) :
  forall (g : matrix) (last : option matrix) st' phi,
    doc_row_shaped s0 doc g ->
    gamma_loop psi cfg n (set_gamma s0 g) doc fd last = Some (st', phi) ->
    (last = Some phi /\ st' = set_gamma s0 g)
    \/ exists row, round_of psi s0 fd phi row /\ (doc < length g)%nat
                   /\ st' = set_gamma s0 (<[doc := row]> g).
Proof.
  induction n as [|n IH]; intros g last st' phi Hg; simpl.
  - destruct last; simpl; [|discriminate]. intros [= <- <-]. auto.
  - destruct (phi_iteration psi (set_gamma s0 g) doc fd) as [[[st1 phi1] mc]|] eqn:E;
      simpl; [|discriminate].
    destruct (phi_iteration_shaped g st1 phi1 mc Hg E) as (row & Hround & Hlt & ->).
    destruct (Rleb mc (gamma_converge_threshold cfg)).
    + intros [= <- <-]. right. eauto.
    + intros H. right. apply IH in H.
      * destruct H as [([= <-] & ->) | (row' & Hround' & _ & ->)]; [eauto|].
        rewrite list_insert_insert_eq. eauto.
      * intros gd Hgd. rewrite list_lookup_insert_eq in Hgd by exact Hlt.
        injection Hgd as <-. eapply round_of_width, Hround.
Qed.

Hypothesis topics : (1 <= _K s0)%nat.

Lemma round_of_mass phi row :
  round_of psi s0 fd phi row -> vsum row = vsum (_alpha s0) + INR (freq_N fd).
Proof.
  intros (beta_rows & gd & Hb & Hg & -> & ->).
  destruct (rows_at_bound _ _ _ Hb) as [_ Hlen].
  pose proof (rows_at_width _ _ _ _ beta_width Hb) as Hrows.
  destruct (phi_contribution_shape psi (_K s0) beta_rows gd (term_counts fd))
    as [Hw _]; auto.
  { unfold term_counts, term_ids in *. rewrite length_map in *. congruence. }
  rewrite vsum_vadd.
  - rewrite vsum_colsum by (apply mexp_width, Hw).
    rewrite phi_contribution_mass; [reflexivity| | |].
    + intros ->. simpl in Hg. lia.
    + eapply Forall_impl; [exact Hrows|]. intros b Hbk ->. simpl in Hbk. lia.
    + unfold term_ids in Hlen. rewrite length_map in Hlen. exact Hlen.
  - rewrite alpha_width, colsum_length; [reflexivity|]. apply mexp_width, Hw.
Qed.

End GammaRow.

(** ** The E-step returns *)

Section EStepRuns.

Variable psi : R -> R.
Variable cfg : config.

Lemma gamma_loop_total (n : nat) :
  forall st doc fd last,
    (1 <= n)%nat \/ is_Some last ->
    (doc < length (_gamma st))%nat ->
    term_ids fd <> [] ->
    Forall (fun t => (t < length (_beta st))%nat) (term_ids fd) ->
    is_Some (gamma_loop psi cfg n st doc fd last).
Proof.
  induction n as [|n IH]; intros st doc fd last Hn Hdoc Hne Hids; simpl.
  - destruct Hn as [Hn | [phi ->]]; [lia|]. simpl. eauto.
  - unfold phi_iteration. rewrite (rows_at_array_nonempty _ _ Hne).
    destruct (rows_at_total _ _ Hids) as [beta_rows ->]. simpl.
    destruct (lookup_lt_is_Some_2 _ _ Hdoc) as [gd ->]. simpl.
    destruct (Rleb _ _); [eauto|].
    apply IH; simpl;
      [right; eauto | rewrite length_insert; exact Hdoc | exact Hne | exact Hids].
Qed.

Lemma update_phi_gamma (s0 : model) (doc : nat) (fd : freqdist) (g : matrix) st' L :
  length (_alpha s0) = _K s0 ->
  rows_of_width (_K s0) (_beta s0) ->
  data_get (_data s0) doc = Some fd ->
  doc_row_shaped s0 doc g ->
  update_phi psi cfg (set_gamma s0 g) doc = Some (st', L) ->
  exists phi row T',
    round_of psi s0 fd phi row
    /\ (doc < length g)%nat
    /\ scatter_add (_phi_table s0) (term_ids fd) (mexp phi) = Some T'
    /\ st' = set_phi_table (set_gamma s0 (<[doc := row]> g)) T'.
Proof.
  intros Ha Hb Hd Hg. unfold update_phi. simpl. rewrite Hd. simpl.
  destruct (gamma_loop psi cfg (gamma_maximum_iteration cfg) (set_gamma s0 g) doc fd None)
    as [[st1 phi]|] eqn:Eloop; simpl; [|discriminate].
  destruct (gamma_loop_shaped psi cfg s0 doc fd Ha Hb _ g None st1 phi Hg Eloop)
    as [[Hno _] | (row & Hround & Hlt & ->)]; [discriminate|].
  simpl. destruct (rows_at (_beta s0) (term_ids fd)); [|discriminate]. simpl.
  destruct (scatter_add (_phi_table s0) (term_ids fd) (mexp phi)) as [T'|] eqn:Hs;
    [|discriminate].
  simpl. intros [= <- _]. exists phi, row, T'. auto.
Qed.

Lemma update_phi_total st doc fd :
  data_get (_data st) doc = Some fd ->
  (1 <= gamma_maximum_iteration cfg)%nat ->
  (doc < length (_gamma st))%nat ->
  term_ids fd <> [] ->
  Forall (fun t => (t < length (_beta st))%nat) (term_ids fd) ->
  Forall (fun t => (t < length (_phi_table st))%nat) (term_ids fd) ->
  is_Some (update_phi psi cfg st doc).
Proof.
  intros Hd Hn Hdoc Hne Hb Ht. unfold update_phi. rewrite Hd. simpl.
  destruct (gamma_loop_total (gamma_maximum_iteration cfg) st doc fd None)
    as [[st1 phi] Eloop]; auto.
  rewrite Eloop. simpl.
  assert (Hsame : _beta st1 = _beta st /\ _phi_table st1 = _phi_table st).
  { destruct (gamma_loop_form _ _ _ _ _ _ _ _ _ Eloop) as [-> | (row & ->)]; auto. }
  destruct Hsame as [-> ->].
  destruct (rows_at_total _ _ Hb) as [beta_rows ->]. simpl.
  unfold scatter_add. destruct (rows_at_total _ _ Ht) as [old ->]. simpl. eauto.
Qed.

(** One document of the pass that holds a term: the E-step returns, keeps the
    shapes, and leaves a row of [self._gamma] whose sum is the sum of
    [self._alpha] plus the number of tokens of the document. *)
Lemma e_step_doc_ok st doc fd :
  pass_ok st ->
  data_get (_data st) doc = Some fd ->
  (doc < _D st)%nat ->
  term_ids fd <> [] ->
  Forall (fun t => (t < _V st)%nat) (term_ids fd) ->
  (1 <= gamma_maximum_iteration cfg)%nat ->
  exists st' L row,
    e_step_doc psi cfg st doc = Some (st', L)
    /\ pass_ok st'
    /\ same_corpus st st'
    /\ _alpha st' = _alpha st /\ _beta st' = _beta st
    /\ _gamma st' = <[doc := row]> (_gamma st)
    /\ vsum row = vsum (_alpha st) + INR (freq_N fd).
Proof.
  intros [[HK Ha Hbr Hb Hgr Hg Hdocs Hterms] Hpr Hpw Hpn] Hd Hdoc Hne Hids Hn.
  assert (HK0 : _K st <> 0%nat) by lia.
  assert (Hlt : (doc < length (_gamma st))%nat) by lia.
  rewrite (e_step_doc_resets psi cfg st doc fd Hd HK0 Hlt).
  set (fresh := map (fun a => a + INR (freq_N fd) / INR (_K st)) (_alpha st)).
  assert (Hfresh : length fresh = _K st) by (unfold fresh; rewrite length_map; exact Ha).
  assert (Hrow : doc_row_shaped st doc (<[doc := fresh]> (_gamma st))).
  { intros gd Hgd. rewrite list_lookup_insert_eq in Hgd by exact Hlt. congruence. }
  destruct (update_phi_total (set_gamma st (<[doc := fresh]> (_gamma st))) doc fd)
    as [[st' L] Hup]; simpl; auto.
  { rewrite length_insert. exact Hlt. }
  { rewrite Hbr. exact Hids. }
  { rewrite Hpr. exact Hids. }
  destruct (update_phi_gamma st doc fd _ st' L Ha Hb Hd Hrow Hup)
    as (phi & row & T' & Hround & _ & Hs & ->).
  pose proof (round_of_width psi st fd Ha Hb phi row Hround) as Hw.
  destruct Hround as (beta_rows & gd & Hrows & Hgd & Hphi & Hrow').
  assert (Hshape : rows_of_width (_K st) phi /\ length phi = length (term_ids fd)).
  { destruct (rows_at_bound _ _ _ Hrows) as [_ Hlen].
    assert (Hbw : rows_of_width (_K st) beta_rows)
      by exact (rows_at_width _ _ _ _ Hb Hrows).
    assert (Hcl : length (term_counts fd) = length beta_rows).
    { unfold term_counts. rewrite length_map, Hlen. unfold term_ids.
      rewrite length_map. reflexivity. }
    destruct (phi_contribution_shape psi (_K st) beta_rows gd (term_counts fd)
                Hbw Hgd Hcl) as [H1 H2].
    subst phi. split; [exact H1 | congruence]. }
  destruct Hshape as [Hphiw Hphil].
  destruct (scatter_add_inv (_K st) (_phi_table st) (term_ids fd) (mexp phi) T')
    as (H1 & H2 & H3 & _); auto.
  { apply mexp_width, Hphiw. }
  { apply mexp_positive. }
  { unfold mexp. rewrite length_map. exact Hphil. }
  exists (set_phi_table (set_gamma st (<[doc := row]> (<[doc := fresh]> (_gamma st)))) T'),
    L, row.
  split; [exact Hup|]. simpl. rewrite list_insert_insert_eq.
  split; [|split; [repeat split | repeat split; auto]].
  - split; simpl; [split; simpl; auto| congruence | exact H2 | exact H3].
    + rewrite length_insert. exact Hgr.
    + unfold rows_of_width. apply Forall_insert; assumption.
  - apply (round_of_mass psi st fd Ha Hb HK phi row).
    exists beta_rows, gd. auto.
Qed.

End EStepRuns.

(** ** The shape of [self._alpha] through [update_alpha] *)

Section NewtonShape.

Variable psi : R -> R.
Variable polygamma : nat -> R -> R.
Variable cfg : config.
Variable Dn : R.
Variable ss : vec.

Lemma step_size_length (alpha : vec) (decay : nat) :
  length ss = length alpha ->
  length (step_size psi polygamma cfg Dn ss alpha decay) = length alpha.
Proof.
  intros H. unfold step_size, newton_c, sum_1_h, alpha_hessian, alpha_gradient,
    vdiv, vsub, vadd.
  rewrite ?vmap2_length, ?length_map, ?vmap2_length, ?length_map. lia.
Qed.

Lemma line_search_length (fuel : nat) (alpha alpha_update : vec) (decay : nat) :
  length ss = length alpha -> length alpha_update = length alpha ->
  length (fst (line_search_fuel psi polygamma cfg Dn ss fuel alpha alpha_update decay))
  = length alpha.
Proof.
  intros Hs Hu. revert decay. induction fuel as [|fuel IH]; intros decay; simpl.
  - destruct (any_ge _ _); [destruct (_ <? _)%nat; exact Hu|].
    simpl. unfold vsub. rewrite vmap2_length, step_size_length by exact Hs. lia.
  - destruct (any_ge _ _); [destruct (_ <? _)%nat; [exact Hu | apply IH]|].
    simpl. unfold vsub. rewrite vmap2_length, step_size_length by exact Hs. lia.
Qed.

Lemma newton_loop_length (n : nat) :
  forall (alpha alpha_update : vec) (decay : nat),
    length ss = length alpha -> length alpha_update = length alpha ->
    length (newton_loop psi polygamma cfg Dn ss n alpha alpha_update decay)
    = length alpha.
Proof.
  induction n as [|n IH]; intros alpha alpha_update decay Hs Hu; simpl; [reflexivity|].
  pose proof (line_search_length (alpha_maximum_decay cfg - decay) alpha alpha_update
                decay Hs Hu) as Hl.
  unfold line_search. destruct (line_search_fuel _ _ _ _ _ _ _ _ _) as [upd d'].
  simpl in Hl. destruct (Rleb _ _); [exact Hl|].
  rewrite IH; congruence.
Qed.

End NewtonShape.

(** ** [inference] returns and keeps the shapes *)

Lemma data_get_key (data : corpus) (d : nat) :
  In d (map fst data) -> exists fd, data_get data d = Some fd /\ In (d, fd) data.
Proof.
  induction data as [|[d' fd'] data IH]; simpl; [tauto|].
  destruct (Nat.eqb_spec d' d) as [-> | Hne].
  - intros _. exists fd'. auto.
  - intros [E | Hin]; [congruence|]. destruct (IH Hin) as (fd & H1 & H2). eauto.
Qed.

Section InferenceRuns.

Variable psi : R -> R.
Variable cfg : config.

Hypothesis rounds : (1 <= gamma_maximum_iteration cfg)%nat.

Lemma e_step_pass_ok (docs : list nat) :
  forall (st : model) (acc : R),
    pass_ok st ->
    Forall (fun d => In d (map fst (_data st))) docs ->
    (forall d fd, In d docs -> data_get (_data st) d = Some fd -> term_ids fd <> []) ->
    exists st' L,
      e_step_pass psi cfg docs st acc = Some (st', L)
      /\ pass_ok st'
      /\ same_corpus st st'
      /\ _alpha st' = _alpha st /\ _beta st' = _beta st
      /\ (forall d fd, In d docs -> data_get (_data st) d = Some fd ->
            exists row, _gamma st' !! d = Some row
                        /\ vsum row = vsum (_alpha st) + INR (freq_N fd))
      /\ (forall i, ~ In i docs -> _gamma st' !! i = _gamma st !! i).
Proof.
  induction docs as [|doc docs IH]; intros st acc Hok Hdocs Hne; simpl.
  - exists st, acc. unfold same_corpus.
    split; [reflexivity|]. split; [exact Hok|]. split; [auto|].
    split; [reflexivity|]. split; [reflexivity|]. split; [|reflexivity].
    intros d fd [].
  - apply Forall_cons in Hdocs as [Hdoc Hdocs].
    destruct (data_get_key _ _ Hdoc) as (fd & Hd & Hin).
    pose proof (pass_model st Hok) as Hm.
    assert (Hlt : (doc < _D st)%nat).
    { pose proof (ok_docs st Hm) as H. rewrite List.Forall_forall in H.
      apply (H (doc, fd) Hin). }
    assert (Hids : Forall (fun t => (t < _V st)%nat) (term_ids fd)).
    { pose proof (ok_terms st Hm) as H. rewrite List.Forall_forall in H.
      apply (H (doc, fd) Hin). }
    assert (Hne1 : term_ids fd <> []) by (apply (Hne doc fd); [left; auto | exact Hd]).
    destruct (e_step_doc_ok psi cfg st doc fd Hok Hd Hlt Hne1 Hids rounds)
      as (st1 & L1 & row & -> & Hok1 & Hsame1 & Ha1 & Hb1 & Hg1 & Hmass).
    simpl. destruct Hsame1 as (HK1 & HD1 & HV1 & Hdata1).
    destruct (IH st1 (acc + L1) Hok1) as
      (st' & L & -> & Hok' & Hsame' & Ha' & Hb' & Hrows' & Hother').
    { rewrite Hdata1. exact Hdocs. }
    { rewrite Hdata1. intros d fd' Hd' Hfd'. apply (Hne d fd'); [right; exact Hd' | exact Hfd']. }
    exists st', L. split; [reflexivity|]. split; [exact Hok'|].
    destruct Hsame' as (HK' & HD' & HV' & Hdata').
    split; [unfold same_corpus; repeat split; congruence|].
    split; [congruence|]. split; [congruence|]. split.
    + intros d fd' Hind Hd'.
      destruct (in_dec Nat.eq_dec d docs) as [Hrest | Hrest].
      * rewrite <- Ha1. apply Hrows'; [exact Hrest | congruence].
      * destruct Hind as [<- | Hind]; [|contradiction].
        rewrite Hd in Hd'. injection Hd' as <-.
        exists row. split; [|exact Hmass].
        rewrite (Hother' doc Hrest), Hg1.
        apply list_lookup_insert_eq.
        rewrite (ok_gamma_rows st Hm). exact Hlt.
    + intros i Hi. rewrite Hother' by tauto. rewrite Hg1.
      apply list_lookup_insert_ne. tauto.
Qed.

End InferenceRuns.

Lemma m_step_shape (st : model) :
  length (_phi_table st) = _V st ->
  rows_of_width (_K st) (_phi_table st) ->
  length (_beta (m_step st)) = _V st /\ rows_of_width (_K st) (_beta (m_step st)).
Proof.
  intros Hl Hw. simpl. rewrite length_map. split; [exact Hl|].
  unfold rows_of_width in *. apply Forall_map.
  eapply Forall_impl; [exact Hw|]. intros r Hr. simpl.
  unfold vdiv. rewrite length_map, vmap2_length, Hr.
  fold (rows_of_width (_K st) (_phi_table st)) in Hw.
  rewrite colsum_length by exact Hw. lia.
Qed.

Lemma statistics_length (psi : R -> R) (k : nat) (g : matrix) :
  rows_of_width k g ->
  length (colsum k (map (fun r => map (fun x => psi x - psi (vsum r)) r) g)) = k.
Proof.
  intros Hg. apply colsum_length. unfold rows_of_width in *. apply Forall_map.
  eapply Forall_impl; [exact Hg|]. intros r Hr. simpl. rewrite length_map. exact Hr.
Qed.

Section InferenceKeeps.

Variable psi : R -> R.
Variable polygamma : nat -> R -> R.
Variable gammaln : R -> R.
Variable cfg : config.

Hypothesis rounds : (1 <= gamma_maximum_iteration cfg)%nat.

Lemma inference_ok (st : model) :
  model_ok st ->
  (forall d fd, In d (map fst (_data st)) -> data_get (_data st) d = Some fd ->
     term_ids fd <> []) ->
  exists st' L,
    inference psi polygamma gammaln cfg st = Some (st', L)
    /\ pass_ok st'
    /\ same_corpus st st'
    /\ (forall d fd, In d (map fst (_data st)) -> data_get (_data st) d = Some fd ->
          exists row, _gamma st' !! d = Some row
                      /\ vsum row = vsum (_alpha st) + INR (freq_N fd))
    /\ (forall i, ~ In i (map fst (_data st)) -> _gamma st' !! i = _gamma st !! i).
Proof.
  intros Hm Hne.
  set (st0 := set_phi_table st (repeat (repeat 0 (_K st)) (_V st))).
  assert (Hok0 : pass_ok st0).
  { destruct (zeros_shape (_K st) (_V st)) as [Hz1 Hz2].
    destruct Hm. split; [split; assumption | | assumption | assumption].
    simpl. apply repeat_length. }
  assert (Hdocs0 : Forall (fun d => In d (map fst (_data st0))) (map fst (_data st0)))
    by (apply List.Forall_forall; auto).
  destruct (e_step_pass_ok psi cfg rounds (map fst (_data st0)) st0 0 Hok0 Hdocs0 Hne)
    as (st1 & Lphi & Hpass & Hok1 & Hsame1 & Ha1 & Hb1 & Hrows & Hother).
  destruct Hsame1 as (HK1 & HD1 & HV1 & Hdata1).
  simpl in HK1, HD1, HV1, Hdata1, Ha1, Hb1, Hrows, Hother.
  pose proof (pass_model st1 Hok1) as Hm1.
  destruct (m_step_shape st1 (pass_rows st1 Hok1) (pass_width st1 Hok1)) as [Hbl Hbw].
  unfold inference. cbv zeta. fold st0. rewrite Hpass. simpl.
  unfold update_alpha. simpl.
  rewrite (statistics_length psi (_K st1) (_gamma st1) (ok_gamma st1 Hm1)).
  rewrite (ok_alpha st1 Hm1), Nat.eqb_refl.
  eexists. eexists. split; [reflexivity|].
  split; [|split; [unfold same_corpus; simpl; auto|split; [exact Hrows | exact Hother]]].
  destruct Hm1, Hok1. split; [split|..]; simpl; try assumption.
  rewrite newton_loop_length; try assumption.
  - rewrite statistics_length by assumption. symmetry. assumption.
  - reflexivity.
Qed.

End InferenceKeeps.

(** ** [learning] returns *)

Lemma same_corpus_trans (a b c : model) :
  same_corpus a b -> same_corpus b c -> same_corpus a c.
Proof. unfold same_corpus. intros (?&?&?&?) (?&?&?&?). repeat split; congruence. Qed.

Lemma same_corpus_refl (a : model) : same_corpus a a.
Proof. unfold same_corpus. auto. Qed.

Section LearningRuns.

Variable psi : R -> R.
Variable polygamma : nat -> R -> R.
Variable gammaln : R -> R.
Variable cfg : config.

Hypothesis rounds : (1 <= gamma_maximum_iteration cfg)%nat.

Lemma learning_loop_ok (n : nat) :
  forall (st : model) (old : R) (printed : list R),
    model_ok st ->
    (forall d fd, In d (map fst (_data st)) -> data_get (_data st) d = Some fd ->
       term_ids fd <> []) ->
    exists st' out,
      learning_loop psi polygamma gammaln cfg n st old printed
      = Some (st', printed ++ out)
      /\ model_ok st' /\ same_corpus st st'
      /\ (length out <= n)%nat
      /\ ((1 <= n)%nat -> (1 <= length out)%nat)
      /\ ((2 <= n)%nat -> old = initial_old_likelihood -> (2 <= length out)%nat).
Proof.
  induction n as [|n IH]; intros st old printed Hm Hne; simpl.
  - exists st, []. rewrite app_nil_r.
    split; [reflexivity|]. split; [exact Hm|]. split; [apply same_corpus_refl|].
    simpl. repeat split; intros; lia.
  - destruct (inference_ok psi polygamma gammaln cfg rounds st Hm Hne)
      as (st1 & new & -> & Hok1 & Hsame1 & _).
    simpl. pose proof (pass_model st1 Hok1) as Hm1.
    assert (Hne1 : forall d fd, In d (map fst (_data st1)) ->
                     data_get (_data st1) d = Some fd -> term_ids fd <> []).
    { destruct Hsame1 as (_ & _ & _ & ->). exact Hne. }
    destruct (np_lt (relative_change new old) (converge_threshold cfg)) eqn:Hconv.
    + exists st1, [new].
      split; [reflexivity|]. split; [exact Hm1|]. split; [exact Hsame1|].
      simpl. split; [lia|]. split; [intros; lia|].
      intros _ ->. exfalso.
      destruct (relative_change_zero new) as [E | E]; rewrite E in Hconv; discriminate.
    + destruct (IH st1 new (printed ++ [new]) Hm1 Hne1)
        as (st' & out & -> & Hm' & Hsame' & Hle & Hone & _).
      exists st', (new :: out). rewrite <- app_assoc. simpl.
      split; [reflexivity|]. split; [exact Hm'|].
      split; [eapply same_corpus_trans; eauto|].
      split; [lia|]. split; [intros; lia|].
      intros H2 _. assert (H : (1 <= n)%nat) by lia. specialize (Hone H). lia.
Qed.

End LearningRuns.

(** ** When the E-step raises *)

Lemma rows_at_unknown (m : matrix) (ids : list nat) (t : nat) :
  In t ids -> (length m <= t)%nat -> rows_at m ids = None.
Proof.
  intros Hin Hge. apply mapM_None_2. apply Exists_exists. exists t.
  split; [apply list_elem_of_In, Hin | apply lookup_ge_None_2, Hge].
Qed.

Section EStepRaises.

Variable psi : R -> R.
Variable cfg : config.

Lemma e_step_doc_frame st doc st' L :
  e_step_doc psi cfg st doc = Some (st', L) ->
  same_corpus st st' /\ _alpha st' = _alpha st /\ _beta st' = _beta st.
Proof.
  unfold e_step_doc. destruct (data_get (_data st) doc); [|discriminate]. simpl.
  destruct (_K st =? 0)%nat; [discriminate|].
  destruct (doc <? length (_gamma st))%nat; [|discriminate].
  intros H. apply update_phi_form in H.
  destruct H as (fd & g' & T' & _ & -> & _). unfold same_corpus. simpl. auto.
Qed.

(** The E-step of a document returns only when the document holds a term. *)
Lemma e_step_doc_nonempty st doc fd st' L :
  data_get (_data st) doc = Some fd ->
  e_step_doc psi cfg st doc = Some (st', L) ->
  term_ids fd <> [].
Proof.
  intros Hd. unfold e_step_doc. rewrite Hd. simpl.
  destruct (_K st =? 0)%nat; [discriminate|].
  destruct (doc <? length (_gamma st))%nat; [|discriminate].
  unfold update_phi. simpl. rewrite Hd. simpl.
  destruct (gamma_maximum_iteration cfg) as [|n]; [discriminate|]. simpl.
  unfold phi_iteration. simpl.
  destruct (term_ids fd); [discriminate | intros _; discriminate].
Qed.

Lemma e_step_pass_nonempty (docs : list nat) :
  forall st acc st' L,
    e_step_pass psi cfg docs st acc = Some (st', L) ->
    forall d fd, In d docs -> data_get (_data st) d = Some fd -> term_ids fd <> [].
Proof.
  induction docs as [|doc docs IH]; intros st acc st' L H d fd Hin Hd; [destruct Hin|].
  simpl in H. destruct (e_step_doc psi cfg st doc) as [[st1 L1]|] eqn:E; [|discriminate].
  simpl in H. destruct (Nat.eq_dec doc d) as [-> | Hne].
  - apply (e_step_doc_nonempty st d fd st1 L1 Hd E).
  - destruct Hin as [-> | Hin]; [congruence|].
    destruct (e_step_doc_frame _ _ _ _ E) as ((_ & _ & _ & Hdata) & _).
    apply (IH st1 _ st' L H d fd Hin). rewrite Hdata. exact Hd.
Qed.

Lemma e_step_doc_no_rounds st doc :
  gamma_maximum_iteration cfg = 0%nat -> e_step_doc psi cfg st doc = None.
Proof.
  intros H0. unfold e_step_doc. destruct (data_get (_data st) doc) eqn:Hd; [|reflexivity].
  simpl. destruct (_K st =? 0)%nat; [reflexivity|].
  destruct (doc <? length (_gamma st))%nat; [|reflexivity].
  unfold update_phi. simpl. rewrite Hd, H0. reflexivity.
Qed.

Lemma e_step_doc_unknown_term st doc fd t :
  data_get (_data st) doc = Some fd ->
  In t (term_ids fd) -> (length (_beta st) <= t)%nat ->
  e_step_doc psi cfg st doc = None.
Proof.
  intros Hd Hin Hge. unfold e_step_doc. rewrite Hd. simpl.
  destruct (_K st =? 0)%nat; [reflexivity|].
  destruct (doc <? length (_gamma st))%nat; [|reflexivity].
  unfold update_phi. simpl. rewrite Hd. simpl.
  destruct (gamma_maximum_iteration cfg) as [|n]; [reflexivity|]. simpl.
  unfold phi_iteration. simpl.
  rewrite rows_at_array_nonempty by (intros E; rewrite E in Hin; destruct Hin).
  rewrite (rows_at_unknown _ _ t Hin Hge). reflexivity.
Qed.

Lemma e_step_pass_unknown_term (docs : list nat) :
  forall st acc doc fd t,
    In doc docs ->
    data_get (_data st) doc = Some fd ->
    In t (term_ids fd) -> (length (_beta st) <= t)%nat ->
    e_step_pass psi cfg docs st acc = None.
Proof.
  induction docs as [|d docs IH]; intros st acc doc fd t Hdoc Hd Hin Hge; [destruct Hdoc|].
  simpl. destruct (e_step_doc psi cfg st d) as [[st1 L1]|] eqn:E; [|reflexivity].
  simpl. destruct (Nat.eq_dec d doc) as [-> | Hne].
  - rewrite (e_step_doc_unknown_term st doc fd t Hd Hin Hge) in E. discriminate.
  - destruct Hdoc as [-> | Hdoc]; [congruence|].
    destruct (e_step_doc_frame _ _ _ _ E) as ((_ & _ & _ & Hdata) & _ & Hbeta).
    apply (IH st1 _ doc fd t Hdoc); congruence.
Qed.

End EStepRaises.

(** ** What [_initialize] sets up *)

Lemma vocab_of_empty (data : corpus) :
  vocab_of data = [] <-> Forall (fun d => snd d = []) data.
Proof.
  split.
  - intros E. apply List.Forall_forall. intros [d fd] Hin. simpl.
    destruct fd as [|[t c] fd]; [reflexivity|]. exfalso.
    assert (H : In t (vocab_of data)).
    { apply vocab_of_spec. exists d, ((t, c) :: fd). simpl. auto. }
    rewrite E in H. destruct H.
  - intros H. destruct (vocab_of data) as [|v l] eqn:E; [reflexivity|]. exfalso.
    assert (Hv : In v (vocab_of data)) by (rewrite E; simpl; auto).
    apply vocab_of_spec in Hv. destruct Hv as (d & fd & Hin & Hv).
    rewrite List.Forall_forall in H. specialize (H (d, fd) Hin). simpl in H.
    subst fd. destruct Hv.
Qed.

Lemma initialize_none (data : corpus) (K : nat) (draw_alpha : vec) (draw_beta : matrix) :
  _initialize data K draw_alpha draw_beta = None
  <-> K = 0%nat \/ vocab_of data = [].
Proof.
  unfold _initialize. cbv zeta.
  destruct (Nat.eqb_spec K 0) as [-> | HK]; [tauto|].
  destruct (Nat.eqb_spec (length (vocab_of data)) 0) as [E | E].
  - split; [|reflexivity]. intros _. right.
    destruct (vocab_of data); [reflexivity | discriminate].
  - split; [discriminate|]. intros [? | H]; [contradiction|].
    rewrite H in E. simpl in E. congruence.
Qed.

Lemma initialize_ok (data : corpus) (K : nat) (draw_alpha : vec) (draw_beta : matrix) st :
  _initialize data K draw_alpha draw_beta = Some st ->
  length draw_alpha = K ->
  length draw_beta = length (vocab_of data) ->
  rows_of_width K draw_beta ->
  Forall (fun d => (fst d < length data)%nat) data ->
  Forall (fun d => Forall (fun t => (t < length (vocab_of data))%nat)
                          (term_ids (snd d))) data ->
  model_ok st.
Proof.
  unfold _initialize. cbv zeta.
  destruct (Nat.eqb_spec K 0) as [|HK]; [discriminate|].
  destruct (Nat.eqb_spec (length (vocab_of data)) 0); [discriminate|].
  intros [= <-] Ha Hbl Hb Hdocs Hterms. split; simpl; auto.
  - lia.
  - rewrite length_map. exact Ha.
  - rewrite length_map. exact Hbl.
  - unfold rows_of_width in *. apply Forall_map.
    eapply Forall_impl; [exact Hb|]. intros r Hr. simpl. rewrite length_map. exact Hr.
  - apply repeat_length.
  - unfold rows_of_width. apply List.Forall_forall. intros r Hr.
    apply repeat_spec in Hr. subst r. rewrite !length_map. exact Ha.
Qed.

Lemma initialize_fields (data : corpus) (K : nat) (draw_alpha : vec) (draw_beta : matrix) st :
  _initialize data K draw_alpha draw_beta = Some st ->
  _K st = K /\ _D st = length data /\ _V st = length (vocab_of data)
  /\ _data st = data
  /\ _gamma st
     = repeat (map (fun a => a + INR (length (vocab_of data)) / INR K) (_alpha st))
              (length data).
Proof.
  unfold _initialize. cbv zeta.
  destruct (Nat.eqb_spec K 0) as [|HK]; [discriminate|].
  destruct (Nat.eqb_spec (length (vocab_of data)) 0); [discriminate|].
  intros [= <-]. simpl. auto.
Qed.

(** ** [self._beta] holds log-probabilities *)

Lemma le_vadd_l (r0 c : vec) :
  Forall (fun a => 0 <= a) c -> length r0 = length c ->
  Forall2 Rle r0 (vadd r0 c).
Proof.
  unfold vadd, vmap2. intros Hc. revert r0.
  induction Hc as [|b c Hb _ IH]; intros [|a r0] Hl; simpl in *; try discriminate;
    constructor; [lra | apply IH; lia].
Qed.

Lemma le_vadd_r (r r0 c : vec) :
  Forall2 Rle r c -> Forall (fun a => 0 <= a) r0 -> length r0 = length c ->
  Forall2 Rle r (vadd r0 c).
Proof.
  unfold vadd, vmap2. intros H. revert r0.
  induction H as [|x b r c Hx _ IH]; intros [|a r0] H0 Hl; simpl in *;
    try discriminate; constructor.
  - apply Forall_cons in H0 as [Ha _]. lra.
  - apply Forall_cons in H0 as [_ H0]. apply IH; [exact H0 | lia].
Qed.

(** In a table without negative entries, an entry is at most the sum of its
    column. *)
Lemma entry_le_colsum (k : nat) (m : matrix) :
  nonneg_table m -> rows_of_width k m ->
  forall i r, m !! i = Some r -> Forall2 Rle r (colsum k m).
Proof.
  intros Hn Hw. induction Hn as [|r0 m Hr0 Hn IH]; intros i r Hi; [destruct i; discriminate|].
  apply Forall_cons in Hw as [Hl0 Hw]. unfold colsum. simpl. fold (colsum k m).
  assert (Hlen : length r0 = length (colsum k m))
    by (rewrite colsum_length by exact Hw; exact Hl0).
  destruct i as [|i]; simpl in Hi.
  - injection Hi as <-. apply le_vadd_l; [apply colsum_nonneg, Hn | exact Hlen].
  - apply le_vadd_r; [apply (IH Hw i r Hi) | exact Hr0 | exact Hlen].
Qed.

Lemma ln_nonpos (x : R) : x <= 1 -> ln x <= 0.
Proof.
  intros H1. destruct (Rlt_dec 0 x) as [H0 | H0].
  - destruct H1 as [Hlt | ->]; [|rewrite ln_1; lra].
    rewrite <- ln_1. left. apply ln_increasing; assumption.
  - unfold ln. destruct (Rlt_dec 0 x); [contradiction | lra].
Qed.

Lemma ln_vdiv_nonpos (r s : vec) :
  Forall (fun x => 0 <= x) r -> all_positive s -> Forall2 Rle r s ->
  Forall (fun x => x <= 0) (map ln (vdiv r s)).
Proof.
  unfold vdiv, vmap2. intros Hr Hs H. induction H as [|a b r s Hab _ IH]; simpl;
    [constructor|].
  apply Forall_cons in Hr as [Ha Hr]. apply Forall_cons in Hs as [Hb Hs].
  constructor; [|apply IH; assumption].
  apply ln_nonpos.
  apply (Rmult_le_reg_r b); [lra|]. unfold Rdiv.
  rewrite Rmult_assoc, Rinv_l by lra. lra.
Qed.

(** The M-step on a table without negative entries whose columns have
    positive sums: an entry is at most the sum of its column. *)
Lemma m_step_nonpositive (st : model) :
  rows_of_width (_K st) (_phi_table st) ->
  nonneg_table (_phi_table st) ->
  all_positive (colsum (_K st) (_phi_table st)) ->
  Forall (Forall (fun x => x <= 0)) (_beta (m_step st)).
Proof.
  intros Hw Hn Hs. simpl. apply Forall_map. apply Forall_lookup. intros i r Hi. simpl.
  pose proof Hn as Hn'. unfold nonneg_table in Hn'. rewrite Forall_lookup in Hn'.
  apply ln_vdiv_nonpos; [apply (Hn' i r Hi) | exact Hs|].
  apply entry_le_colsum with (i := i); auto.
Qed.

(** ** The mass of [self._phi_table] *)

Lemma msum_insert (T : matrix) (i : nat) (o x : vec) :
  T !! i = Some o -> msum (<[i := x]> T) = msum T - vsum o + vsum x.
Proof.
  unfold msum. revert i. induction T as [|r T IH]; intros [|i] Hi; simpl in *;
    try discriminate.
  - injection Hi as ->. lra.
  - rewrite (IH i Hi). lra.
Qed.

Lemma rows_at_ext (T T' : matrix) (ids : list nat) :
  (forall i, In i ids -> T' !! i = T !! i) -> rows_at T' ids = rows_at T ids.
Proof.
  unfold rows_at. induction ids as [|t ids IH]; intros H; [reflexivity|].
  simpl. rewrite (H t) by (simpl; auto). rewrite IH; [reflexivity|].
  intros i Hi. apply H. simpl. auto.
Qed.

(** With distinct indices, writing the first row back and then adding the rest
    is the whole of line 151. *)
Lemma scatter_add_cons (T : matrix) (t : nat) (ids : list nat) (o x : vec) (X : matrix) :
  ~ In t ids -> T !! t = Some o ->
  scatter_add T (t :: ids) (x :: X) = scatter_add (<[t := vadd o x]> T) ids X.
Proof.
  intros Hout Ht. unfold scatter_add.
  rewrite (rows_at_ext T (<[t := vadd o x]> T) ids).
  - unfold rows_at at 1. simpl. rewrite Ht. simpl. fold (rows_at T ids).
    destruct (rows_at T ids) as [old|]; reflexivity.
  - intros i Hi. apply list_lookup_insert_ne. intros ->. contradiction.
Qed.

Lemma scatter_add_mass (k : nat) (ids : list nat) :
  forall (T X T' : matrix),
    NoDup ids ->
    rows_of_width k T -> rows_of_width k X -> length X = length ids ->
    scatter_add T ids X = Some T' ->
    msum T' = msum T + msum X.
Proof.
  induction ids as [|t ids IH]; intros T X T' Hnd HwT HwX Hlen Hs.
  - destruct X; [|discriminate]. unfold scatter_add in Hs. simpl in Hs.
    injection Hs as <-. unfold msum. simpl. lra.
  - destruct X as [|x X]; [discriminate|].
    apply NoDup_cons in Hnd as [Hout Hnd]. rewrite list_elem_of_In in Hout.
    assert (Ht : is_Some (T !! t)).
    { unfold scatter_add in Hs. destruct (rows_at T (t :: ids)) as [old|] eqn:E;
        [|discriminate].
      destruct (rows_at_bound _ _ _ E) as [Hb _]. apply Forall_cons in Hb as [Hb _].
      apply lookup_lt_is_Some_2, Hb. }
    destruct Ht as [o Ht]. rewrite (scatter_add_cons T t ids o x X Hout Ht) in Hs.
    apply Forall_cons in HwX as [Hx HwX].
    assert (Ho : length o = k).
    { unfold rows_of_width in HwT. rewrite Forall_lookup in HwT. eauto. }
    rewrite (IH (<[t := vadd o x]> T) X T' Hnd); auto.
    + rewrite (msum_insert T t o _ Ht), vsum_vadd by congruence.
      unfold msum. simpl. lra.
    + unfold rows_of_width. apply Forall_insert; [exact HwT|].
      rewrite vadd_length. lia.
Qed.

Lemma msum_zeros (k v : nat) : msum (repeat (repeat 0 k) v) = 0.
Proof.
  unfold msum. induction v as [|v IH]; simpl; [reflexivity|].
  rewrite IH, vsum_zeros. lra.
Qed.

Section TableMass.

Variable psi : R -> R.
Variable cfg : config.

Hypothesis rounds : (1 <= gamma_maximum_iteration cfg)%nat.

Lemma e_step_doc_mass st doc fd st' L :
  pass_ok st ->
  data_get (_data st) doc = Some fd ->
  NoDup (term_ids fd) ->
  e_step_doc psi cfg st doc = Some (st', L) ->
  msum (_phi_table st') = msum (_phi_table st) + INR (freq_N fd).
Proof.
  intros [[HK Ha Hbr Hb Hgr Hg _ _] Hpr Hpw Hpn] Hd Hnd He.
  assert (HK0 : _K st <> 0%nat) by lia.
  assert (Hlt : (doc < length (_gamma st))%nat).
  { unfold e_step_doc in He. rewrite Hd in He. simpl in He.
    destruct (_K st =? 0)%nat; [discriminate|].
    destruct (doc <? length (_gamma st))%nat eqn:E; [|discriminate].
    apply Nat.ltb_lt, E. }
  rewrite (e_step_doc_resets psi cfg st doc fd Hd HK0 Hlt) in He.
  set (fresh := map (fun a => a + INR (freq_N fd) / INR (_K st)) (_alpha st)) in *.
  assert (Hrow : doc_row_shaped st doc (<[doc := fresh]> (_gamma st))).
  { intros gd Hgd. rewrite list_lookup_insert_eq in Hgd by exact Hlt.
    injection Hgd as <-. unfold fresh. rewrite length_map. exact Ha. }
  destruct (update_phi_gamma psi cfg st doc fd _ st' L Ha Hb Hd Hrow He)
    as (phi & row & T' & Hround & _ & Hs & ->).
  destruct Hround as (beta_rows & gd & Hrows & Hgd & Hphi & _).
  destruct (rows_at_bound _ _ _ Hrows) as [_ Hlen].
  assert (Hbw : rows_of_width (_K st) beta_rows)
    by exact (rows_at_width _ _ _ _ Hb Hrows).
  assert (Hcl : length (term_counts fd) = length beta_rows).
  { unfold term_counts. rewrite length_map, Hlen. unfold term_ids.
    rewrite length_map. reflexivity. }
  destruct (phi_contribution_shape psi (_K st) beta_rows gd (term_counts fd)
              Hbw Hgd Hcl) as [H1 H2].
  rewrite <- Hphi in H1, H2. simpl.
  rewrite (scatter_add_mass (_K st) (term_ids fd) (_phi_table st) (mexp phi) T');
    auto.
  - f_equal. rewrite Hphi. apply phi_contribution_mass.
    + intros ->. simpl in Hgd. lia.
    + eapply Forall_impl; [exact Hbw|]. intros b Hbk ->. simpl in Hbk. lia.
    + unfold term_ids in Hlen. rewrite length_map in Hlen. exact Hlen.
  - apply mexp_width, H1.
  - unfold mexp. rewrite length_map. congruence.
Qed.

Lemma e_step_pass_mass (items : corpus) :
  forall st acc st' L,
    pass_ok st ->
    Forall (fun p => In p (_data st) /\ data_get (_data st) (fst p) = Some (snd p)
                     /\ NoDup (term_ids (snd p))) items ->
    e_step_pass psi cfg (map fst items) st acc = Some (st', L) ->
    msum (_phi_table st') = msum (_phi_table st) + INR (corpus_tokens items).
Proof.
  induction items as [|[d fd] items IH]; intros st acc st' L Hok Hit; simpl.
  - intros [= <- _]. lra.
  - apply Forall_cons in Hit as [(Hin & Hd & Hnd) Hit]. simpl in Hd, Hnd.
    destruct (e_step_doc psi cfg st d) as [[st1 L1]|] eqn:E; simpl; [|discriminate].
    pose proof (e_step_doc_mass st d fd st1 L1 Hok Hd Hnd E) as Hmass.
    pose proof (pass_model st Hok) as Hm.
    assert (Hlt : (d < _D st)%nat).
    { pose proof (ok_docs st Hm) as H. rewrite List.Forall_forall in H.
      apply (H (d, fd) Hin). }
    assert (Hids : Forall (fun t => (t < _V st)%nat) (term_ids fd)).
    { pose proof (ok_terms st Hm) as H. rewrite List.Forall_forall in H.
      apply (H (d, fd) Hin). }
    pose proof (e_step_doc_nonempty psi cfg st d fd st1 L1 Hd E) as Hne.
    destruct (e_step_doc_ok psi cfg st d fd Hok Hd Hlt Hne Hids rounds)
      as (st1' & L1' & row & E' & Hok1 & (_ & _ & _ & Hdata1) & _).
    rewrite E in E'. injection E' as <- <-.
    intros Hpass. rewrite (IH st1 (acc + L1) st' L Hok1); [| |exact Hpass].
    + rewrite Hmass. unfold corpus_tokens. simpl. rewrite plus_INR.
      fold (corpus_tokens items). lra.
    + rewrite Hdata1. exact Hit.
Qed.

End TableMass.

(** ** The E-step on topic-symmetric input *)

Lemma vmap2_repeat (f : R -> R -> R) (x y : R) (k : nat) :
  vmap2 f (repeat x k) (repeat y k) = repeat (f x y) k.
Proof. unfold vmap2. induction k as [|k IH]; simpl; [reflexivity | rewrite IH; reflexivity]. Qed.

Lemma map_repeat {A B} (f : A -> B) (x : A) (k : nat) :
  map f (repeat x k) = repeat (f x) k.
Proof. induction k as [|k IH]; simpl; [reflexivity | rewrite IH; reflexivity]. Qed.

Lemma vsum_repeat (x : R) (k : nat) : vsum (repeat x k) = INR k * x.
Proof.
  induction k as [|k IH]; [simpl; lra|].
  rewrite S_INR. simpl repeat. simpl vsum. rewrite IH. lra.
Qed.

Lemma symmetric_weight (x c : R) (k : nat) :
  (1 <= k)%nat -> 0 < c ->
  exp (x - ln (vsum (map exp (repeat x k))) + ln c) = c / INR k.
Proof.
  intros Hk Hc. assert (HK : 0 < INR k) by (apply lt_0_INR; lia).
  pose proof (exp_pos x) as He.
  rewrite map_repeat, vsum_repeat, exp_plus, exp_ln by exact Hc.
  rewrite exp_minus_ln by (apply Rmult_lt_0_compat; assumption).
  field. split; lra.
Qed.

Section SymmetricEStep.

Variable psi : R -> R.

(** Rows of [self._beta] that are constant over the topics, against a row of
    [self._gamma] that is constant over the topics, give each topic the same
    share [c_v / K] of every term. *)
Lemma symmetric_phi (k : nat) (g : R) (beta_rows : matrix) (counts : vec) :
  (1 <= k)%nat ->
  Forall (fun r => exists b, r = repeat b k) beta_rows ->
  all_positive counts ->
  length counts = length beta_rows ->
  mexp (count_weighted (log_phi psi beta_rows (repeat g k)) counts)
  = map (fun c => repeat (c / INR k) k) counts.
Proof.
  intros Hk Hb. revert counts.
  induction Hb as [|r rows [b ->] _ IH]; intros [|c counts] Hpos Hl;
    simpl in *; try discriminate; [reflexivity|].
  apply Forall_cons in Hpos as [Hc Hpos].
  unfold mexp, count_weighted, log_phi in *. simpl.
  rewrite IH by (auto; lia). f_equal.
  unfold vadd. rewrite map_repeat, vmap2_repeat, !map_repeat.
  f_equal. rewrite <- (symmetric_weight (b + psi g) c k Hk Hc).
  rewrite map_repeat. reflexivity.
Qed.

Lemma colsum_shares (k : nat) (counts : vec) :
  colsum k (map (fun c => repeat (c / INR k) k) counts)
  = repeat (vsum counts / INR k) k.
Proof.
  unfold colsum. induction counts as [|c counts IH]; simpl.
  - f_equal. unfold Rdiv. ring.
  - rewrite IH. unfold vadd. rewrite vmap2_repeat. f_equal. unfold Rdiv. ring.
Qed.

End SymmetricEStep.

Lemma rows_at_const (m : matrix) (ids : list nat) (k : nat) :
  Forall (fun t => exists b, m !! t = Some (repeat b k)) ids ->
  exists rows, rows_at m ids = Some rows
               /\ Forall (fun r => exists b, r = repeat b k) rows.
Proof.
  unfold rows_at. induction 1 as [|t ids [b Hb] _ (rows & Hrows & Hall)].
  - exists []. split; [reflexivity | constructor].
  - exists (repeat b k :: rows). simpl. rewrite Hb. simpl. rewrite Hrows. simpl.
    split; [reflexivity|]. constructor; eauto.
Qed.

Section SymmetricDocument.

Variable psi : R -> R.
Variable cfg : config.

Lemma symmetric_e_step_doc st doc fd (a : R) :
  data_get (_data st) doc = Some fd ->
  term_ids fd <> [] ->
  (1 <= _K st)%nat ->
  _alpha st = repeat a (_K st) ->
  Forall (fun t => exists b, _beta st !! t = Some (repeat b (_K st))) (term_ids fd) ->
  Forall (fun t => (t < length (_phi_table st))%nat) (term_ids fd) ->
  (doc < length (_gamma st))%nat ->
  (1 <= gamma_maximum_iteration cfg)%nat ->
  0 <= gamma_converge_threshold cfg ->
  let fresh := repeat (a + INR (freq_N fd) / INR (_K st)) (_K st) in
  let entry := set_gamma st (<[doc := fresh]> (_gamma st)) in
  (exists phi, phi_iteration psi entry doc fd = Some (entry, phi, 0))
  /\ exists T' L, e_step_doc psi cfg st doc = Some (set_phi_table entry T', L).
Proof.
  intros Hd Hne HK Ha Hconst Hphi Hdoc Hn Hthr fresh entry.
  assert (HK0 : _K st <> 0%nat) by lia.
  destruct (rows_at_const _ _ _ Hconst) as (beta_rows & Hrows & Hall).
  destruct (rows_at_bound _ _ _ Hrows) as [_ Hlen].
  assert (Hcl : length (term_counts fd) = length beta_rows).
  { unfold term_counts. rewrite length_map, Hlen. unfold term_ids.
    rewrite length_map. reflexivity. }
  set (phi := count_weighted (log_phi psi beta_rows fresh) (term_counts fd)).
  assert (Hupd : vadd (_alpha st) (colsum (_K st) (mexp phi)) = fresh).
  { unfold phi, fresh.
    rewrite (symmetric_phi psi (_K st) _ beta_rows (term_counts fd) HK Hall
               (term_counts_positive fd) Hcl).
    rewrite colsum_shares, vsum_term_counts, Ha.
    unfold vadd. apply vmap2_repeat. }
  assert (Hit : phi_iteration psi entry doc fd = Some (entry, phi, 0)).
  { unfold phi_iteration. simpl. rewrite (rows_at_array_nonempty _ _ Hne), Hrows.
    simpl. rewrite list_lookup_insert_eq by exact Hdoc. simpl. fold phi.
    rewrite Hupd, mean_abs_self, list_insert_insert_eq. reflexivity. }
  split; [eauto|].
  rewrite (e_step_doc_resets psi cfg st doc fd Hd HK0 Hdoc).
  rewrite Ha, map_repeat. fold fresh. fold entry.
  unfold update_phi. simpl. rewrite Hd. simpl.
  destruct (gamma_maximum_iteration cfg) as [|n]; [lia|]. simpl.
  rewrite Hit. simpl. apply Rleb_true in Hthr. rewrite Hthr. simpl.
  rewrite Hrows. simpl. unfold scatter_add.
  destruct (rows_at_total _ _ Hphi) as [old ->]. simpl. eauto.
Qed.

End SymmetricDocument.

(** ** Documents that hold a term *)

Lemma nonempty_docs_lookup (data : corpus) :
  Forall (fun d => snd d <> []) data ->
  forall d fd, In d (map fst data) -> data_get data d = Some fd -> term_ids fd <> [].
Proof.
  intros Hall d fd _ Hd. rewrite List.Forall_forall in Hall.
  pose proof (Hall (d, fd) (data_get_elem _ _ _ Hd)) as Hne. simpl in Hne.
  unfold term_ids. destruct fd; [congruence | discriminate].
Qed.

(** [inference] returns only when every document holds a term. *)
Lemma inference_nonempty
    (psi : R -> R) (polygamma : nat -> R -> R) (gammaln : R -> R) (cfg : config)
    (st st' : model) (L : R) :
  inference psi polygamma gammaln cfg st = Some (st', L) ->
  forall d fd, In d (map fst (_data st)) -> data_get (_data st) d = Some fd ->
    term_ids fd <> [].
Proof.
  intros Hinf.
  destruct (inference_tables psi polygamma gammaln cfg st st' L Hinf)
    as (st1 & acc & Hpass & _).
  apply (e_step_pass_nonempty psi cfg _ _ _ _ _ Hpass).
Qed.

(** * Further theorems *)

(** X3.  On a state of the shapes [_initialize] sets up whose documents all
    hold a term, with at least one round of the gamma loop, [inference]
    returns (no IndexError, assertion or division error), and the state it
    leaves has the same shapes, the same corpus, [K], [D] and [V], and a
    [self._phi_table] of shape [(V, K)] without negative entries. *)
Theorem inference_returns_well_shaped
    (psi : R -> R) (polygamma : nat -> R -> R) (gammaln : R -> R) (cfg : config)
    (st : model) :
  (1 <= gamma_maximum_iteration cfg)%nat ->
  model_ok st ->
  Forall (fun d => snd d <> []) (_data st) ->
  exists st' L,
    inference psi polygamma gammaln cfg st = Some (st', L)
    /\ model_ok st' /\ pass_ok st' /\ same_corpus st st'.
Proof.
  intros Hn Hm Hne.
  destruct (inference_ok psi polygamma gammaln cfg Hn st Hm
              (nonempty_docs_lookup _ Hne))
    as (st' & L & H & Hok & Hsame & _).
  exists st', L. split; [exact H|]. split; [apply pass_model, Hok|]. auto.
Qed.

(** X4.  After [inference], the row of [self._gamma] of every document sums to
    the sum of [self._alpha] (as it was when [inference] was called) plus the
    number of tokens of the document. *)
Theorem gamma_rows_sum_after_inference
    (psi : R -> R) (polygamma : nat -> R -> R) (gammaln : R -> R) (cfg : config)
    (st st' : model) (L : R) :
  (1 <= gamma_maximum_iteration cfg)%nat ->
  model_ok st ->
  inference psi polygamma gammaln cfg st = Some (st', L) ->
  forall d fd,
    In d (map fst (_data st)) -> data_get (_data st) d = Some fd ->
    exists row, _gamma st' !! d = Some row
                /\ vsum row = vsum (_alpha st) + INR (freq_N fd).
Proof.
  intros Hn Hm Hinf.
  destruct (inference_ok psi polygamma gammaln cfg Hn st Hm
              (inference_nonempty psi polygamma gammaln cfg st st' L Hinf))
    as (st'' & L'' & H & _ & _ & Hrows & _).
  rewrite Hinf in H. injection H as <- <-. exact Hrows.
Qed.

(** X5.  [update_phi] writes row [doc_id] of [self._gamma] and the rows of
    [self._phi_table] of the terms of the document, and nothing else: the
    corpus, [K], [D], [V], [self._alpha], [self._beta], the other rows of
    [self._gamma] and the rows of the table of the other terms are as before. *)
Theorem update_phi_touches_only_its_document
    (psi : R -> R) (cfg : config) (st st' : model) (doc : nat) (L : R) :
  update_phi psi cfg st doc = Some (st', L) ->
  same_corpus st st'
  /\ _alpha st' = _alpha st /\ _beta st' = _beta st
  /\ length (_gamma st') = length (_gamma st)
  /\ (forall i, i <> doc -> _gamma st' !! i = _gamma st !! i)
  /\ length (_phi_table st') = length (_phi_table st)
  /\ (forall fd v, data_get (_data st) doc = Some fd -> ~ In v (term_ids fd) ->
        _phi_table st' !! v = _phi_table st !! v).
Proof.
  intros H. apply update_phi_form in H.
  destruct H as (fd & g' & T' & Hd & -> & Hl & Hother & HlT & HT).
  unfold same_corpus. simpl. repeat (split; [auto; fail|]).
  intros fd' v Hd' Hv. rewrite Hd in Hd'. injection Hd' as <-. auto.
Qed.

(** X6.  On a state of the shapes [_initialize] sets up whose documents all
    hold a term, [learning] returns, with a state of the same shapes and
    corpus; it prints at most as many likelihoods as the iteration cap, and at
    least two when the cap allows it: the test of line 219 never stops the
    loop in its first round. *)
Theorem learning_returns
    (psi : R -> R) (polygamma : nat -> R -> R) (gammaln : R -> R) (cfg : config)
    (st : model) (iteration : Z) :
  (1 <= gamma_maximum_iteration cfg)%nat ->
  model_ok st ->
  Forall (fun d => snd d <> []) (_data st) ->
  let cap := if (iteration <=? 0)%Z then maximum_iteration cfg
             else Z.to_nat iteration in
  exists st' printed,
    learning psi polygamma gammaln cfg st iteration = Some (st', printed)
    /\ model_ok st' /\ same_corpus st st'
    /\ (length printed <= cap)%nat
    /\ ((2 <= cap)%nat -> (2 <= length printed)%nat).
Proof.
  intros Hn Hm Hne cap. unfold learning. fold cap.
  destruct (learning_loop_ok psi polygamma gammaln cfg Hn cap st
              initial_old_likelihood [] Hm (nonempty_docs_lookup _ Hne))
    as (st' & out & H & Hm' & Hsame & Hle & _ & Htwo).
  exists st', out. simpl in H. auto 10.
Qed.

(** X7.  [_initialize] raises (a division by zero) exactly when the number of
    topics is zero or no document of the corpus holds a term. *)
Theorem initialize_raises_iff
    (data : corpus) (K : nat) (draw_alpha : vec) (draw_beta : matrix) :
  _initialize data K draw_alpha draw_beta = None
  <-> K = 0%nat \/ Forall (fun d => snd d = []) data.
Proof. rewrite initialize_none, vocab_of_empty. reflexivity. Qed.

(** X8.  When [_initialize] returns, for draws of the shapes [(1, K)] and
    [(V, K)] and a corpus whose document ids are below the number of documents
    and whose term ids are below the number of distinct terms, the state has
    the shapes that [inference] needs; [D] is the number of documents, [V] the
    number of distinct terms, and every row of [self._gamma] is
    [alpha + V / K], whatever the lengths of the documents. *)
Theorem initialize_sets_up_model
    (data : corpus) (K : nat) (draw_alpha : vec) (draw_beta : matrix) (st : model) :
  _initialize data K draw_alpha draw_beta = Some st ->
  length draw_alpha = K ->
  length draw_beta = length (vocab_of data) ->
  rows_of_width K draw_beta ->
  Forall (fun d => (fst d < length data)%nat) data ->
  Forall (fun d => Forall (fun t => (t < length (vocab_of data))%nat)
                          (term_ids (snd d))) data ->
  model_ok st
  /\ _K st = K /\ _D st = length data /\ _V st = length (vocab_of data)
  /\ _data st = data
  /\ _gamma st
     = repeat (map (fun a => a + INR (length (vocab_of data)) / INR K) (_alpha st))
              (length data).
Proof.
  intros H Ha Hbl Hb Hdocs Hterms. split.
  - eapply initialize_ok; eauto.
  - eapply initialize_fields; eauto.
Qed.

(** X9.  With [gamma_maximum_iteration = 0] the loop of [update_phi] never
    assigns [phi_contribution], line 148 reads it, and [inference] raises on
    every corpus that has a document. *)
Theorem inference_raises_without_gamma_rounds
    (psi : R -> R) (polygamma : nat -> R -> R) (gammaln : R -> R) (cfg : config)
    (st : model) :
  gamma_maximum_iteration cfg = 0%nat ->
  _data st <> [] ->
  inference psi polygamma gammaln cfg st = None.
Proof.
  intros H0 Hne. unfold inference. cbv zeta. simpl.
  destruct (_data st) as [|[d fd] rest]; [congruence|]. simpl.
  rewrite e_step_doc_no_rounds by exact H0. reflexivity.
Qed.

(** X10.  A document that holds a term id past the rows of [self._beta] makes
    [inference] raise (an IndexError), wherever the document stands in the
    corpus. *)
Theorem inference_raises_on_unknown_term
    (psi : R -> R) (polygamma : nat -> R -> R) (gammaln : R -> R) (cfg : config)
    (st : model) (doc : nat) (fd : freqdist) (t : nat) :
  In doc (map fst (_data st)) ->
  data_get (_data st) doc = Some fd ->
  In t (term_ids fd) ->
  (length (_beta st) <= t)%nat ->
  inference psi polygamma gammaln cfg st = None.
Proof.
  intros Hdoc Hd Hin Hge. unfold inference. cbv zeta.
  rewrite (e_step_pass_unknown_term psi cfg _ _ _ doc fd t); auto.
Qed.

(** X11.  After [inference] every entry of [self._beta] is at most zero,
    provided each column of [self._phi_table] has a positive sum: the table has
    no negative entry, so an entry is at most the sum of its column, and the
    M-step stores the logarithm of the quotient. *)
Theorem beta_entries_nonpositive
    (psi : R -> R) (polygamma : nat -> R -> R) (gammaln : R -> R) (cfg : config)
    (st st' : model) (L : R) :
  well_shaped st ->
  NoDup (map fst (_data st)) ->
  _V st = length (vocab_of (_data st)) ->
  inference psi polygamma gammaln cfg st = Some (st', L) ->
  all_positive (colsum (_K st') (_phi_table st')) ->
  Forall (Forall (fun x => x <= 0)) (_beta st').
Proof.
  intros Hws Hnd Hvoc Hinf Hsum.
  destruct (inference_phi_table psi polygamma gammaln cfg st st' L Hws Hnd Hvoc Hinf)
    as (st1 & HK & HK1 & HT & HB & Hlen & Hw & Hp).
  rewrite HB. rewrite HK, HT, <- HK1 in Hsum.
  apply m_step_nonpositive; [rewrite HK1; exact Hw | | exact Hsum].
  unfold nonneg_table. eapply Forall_impl; [exact Hp|].
  intros r Hr. apply positive_nonneg, Hr.
Qed.

(** X12.  After [inference] the entries of [self._phi_table] sum to the number
    of tokens of the corpus, when the document ids are distinct and so are the
    term ids of each document (they are keys of dicts). *)
Theorem phi_table_mass
    (psi : R -> R) (polygamma : nat -> R -> R) (gammaln : R -> R) (cfg : config)
    (st st' : model) (L : R) :
  (1 <= gamma_maximum_iteration cfg)%nat ->
  model_ok st ->
  NoDup (map fst (_data st)) ->
  Forall (fun d => NoDup (term_ids (snd d))) (_data st) ->
  inference psi polygamma gammaln cfg st = Some (st', L) ->
  msum (_phi_table st') = INR (corpus_tokens (_data st)).
Proof.
  intros Hn Hm Hnd Hterms Hinf.
  destruct (inference_tables psi polygamma gammaln cfg st st' L Hinf)
    as (st1 & acc & Hpass & _ & HT & _).
  set (st0 := set_phi_table st (repeat (repeat 0 (_K st)) (_V st))) in *.
  assert (Hok0 : pass_ok st0).
  { destruct (zeros_shape (_K st) (_V st)) as [Hz1 Hz2].
    destruct Hm. split; [split; assumption | | assumption | assumption].
    simpl. apply repeat_length. }
  rewrite HT.
  rewrite (e_step_pass_mass psi cfg Hn (_data st) st0 0 st1 acc Hok0); [| |exact Hpass].
  - simpl. rewrite msum_zeros. lra.
  - simpl. apply List.Forall_forall. intros [d fd] Hin. simpl.
    split; [exact Hin|]. split; [apply data_get_in; assumption|].
    rewrite List.Forall_forall in Hterms. apply (Hterms (d, fd) Hin).
Qed.

(** X13.  When [self._alpha] has one value for all the topics and the rows of
    [self._beta] of the terms of a document that holds a term have one value
    each for all the topics, the E-step of the document leaves the row of
    [self._gamma] at [alpha + N_d / K]: the first round of the loop has a mean
    change of zero. *)
Theorem symmetric_e_step_keeps_gamma
    (psi : R -> R) (cfg : config) (st : model) (doc : nat) (fd : freqdist) (a : R) :
  data_get (_data st) doc = Some fd ->
  term_ids fd <> [] ->
  (1 <= _K st)%nat ->
  _alpha st = repeat a (_K st) ->
  Forall (fun t => exists b, _beta st !! t = Some (repeat b (_K st))) (term_ids fd) ->
  Forall (fun t => (t < length (_phi_table st))%nat) (term_ids fd) ->
  (doc < length (_gamma st))%nat ->
  (1 <= gamma_maximum_iteration cfg)%nat ->
  0 <= gamma_converge_threshold cfg ->
  let fresh := repeat (a + INR (freq_N fd) / INR (_K st)) (_K st) in
  let entry := set_gamma st (<[doc := fresh]> (_gamma st)) in
  (exists phi, phi_iteration psi entry doc fd = Some (entry, phi, 0))
  /\ exists st' L,
       e_step_doc psi cfg st doc = Some (st', L)
       /\ _gamma st' = <[doc := fresh]> (_gamma st).
Proof.
  intros Hd Hne HK Ha Hconst Hphi Hdoc Hn Hthr fresh entry.
  destruct (symmetric_e_step_doc psi cfg st doc fd a Hd Hne HK Ha Hconst Hphi Hdoc Hn Hthr)
    as [Hit (T' & L & H)].
  split; [exact Hit|]. eexists. exists L. split; [exact H | reflexivity].
Qed.

(** ** The further theorems at concrete inputs *)

Lemma small_example_ok : model_ok small_example.
Proof. split; simpl; repeat constructor. Qed.

Lemma default_rounds : (1 <= gamma_maximum_iteration default_config)%nat.
Proof. simpl. lia. Qed.

Lemma small_example_nonempty : Forall (fun d => snd d <> []) (_data small_example).
Proof. simpl. constructor; [discriminate | constructor]. Qed.

Lemma small_example_infers :
  exists st' L,
    inference (fun x => x) (fun _ x => 2 / x) (fun _ => 0) default_config small_example
    = Some (st', L).
Proof.
  destruct (inference_ok (fun x => x) (fun _ x => 2 / x) (fun _ => 0) default_config
              default_rounds small_example small_example_ok
              (nonempty_docs_lookup _ small_example_nonempty)) as (st' & L & H & _).
  eauto.
Qed.

Lemma inference_returns_well_shaped_witness :
  exists st' L,
    inference (fun x => x) (fun _ x => 2 / x) (fun _ => 0) default_config small_example
    = Some (st', L)
    /\ model_ok st' /\ pass_ok st' /\ same_corpus small_example st'.
Proof.
  apply (inference_returns_well_shaped (fun x => x) (fun _ x => 2 / x) (fun _ => 0)
           default_config small_example).
  - simpl. lia.
  - split; simpl; repeat constructor.
  - simpl. constructor; [discriminate | constructor].
Defined.

Lemma gamma_rows_sum_after_inference_witness :
  exists st' L,
    inference (fun x => x) (fun _ x => 2 / x) (fun _ => 0) default_config small_example
    = Some (st', L)
    /\ exists row, _gamma st' !! 0%nat = Some row
                   /\ vsum row = vsum [1; 1] + INR (freq_N [(0%nat, 3%positive)]).
Proof.
  destruct small_example_infers as (st' & L & H). exists st', L. split; [exact H|].
  assert (Hn : (1 <= gamma_maximum_iteration default_config)%nat) by (simpl; lia).
  assert (Hm : model_ok small_example) by (split; simpl; repeat constructor).
  apply (gamma_rows_sum_after_inference (fun x => x) (fun _ x => 2 / x) (fun _ => 0)
           default_config small_example st' L Hn Hm H 0%nat [(0%nat, 3%positive)]).
  - simpl. auto.
  - reflexivity.
Defined.

Lemma newton_example_update_phi :
  exists st' L, update_phi (fun x => x) default_config newton_example 0 = Some (st', L).
Proof.
  destruct (update_phi_total (fun x => x) default_config newton_example 0
              [(0%nat, 1%positive)]) as [[st' L] H]; simpl; eauto;
    try lia; try discriminate; repeat constructor.
Qed.

Lemma update_phi_touches_only_its_document_witness :
  exists st' L,
    update_phi (fun x => x) default_config newton_example 0 = Some (st', L)
    /\ same_corpus newton_example st'
    /\ _alpha st' = [1; 1] /\ _beta st' = [[0; 0]]
    /\ length (_gamma st') = 1%nat
    /\ (forall i, i <> 0%nat -> _gamma st' !! i = [[1; 1]] !! i)
    /\ length (_phi_table st') = 1%nat
    /\ (forall fd v, data_get (_data newton_example) 0 = Some fd ->
          ~ In v (term_ids fd) -> _phi_table st' !! v = [[0; 0]] !! v).
Proof.
  destruct newton_example_update_phi as (st' & L & H). exists st', L.
  split; [exact H|].
  apply (update_phi_touches_only_its_document (fun x => x) default_config
           newton_example st' 0 L).
  exact H.
Defined.

Lemma learning_returns_witness :
  exists st' printed,
    learning (fun x => x) (fun _ x => 2 / x) (fun _ => 0) default_config small_example 3
    = Some (st', printed)
    /\ model_ok st' /\ same_corpus small_example st'
    /\ (length printed <= 3)%nat
    /\ ((2 <= 3)%nat -> (2 <= length printed)%nat).
Proof.
  apply (learning_returns (fun x => x) (fun _ x => 2 / x) (fun _ => 0) default_config
           small_example 3).
  - simpl. lia.
  - split; simpl; repeat constructor.
  - simpl. constructor; [discriminate | constructor].
Defined.

Lemma initialize_sets_up_model_witness :
  exists st,
    _initialize [(0%nat, [(0%nat, 1%positive)])] 2 [1 / 4; 1 / 2] [[1 / 2; 1 / 2]]
    = Some st
    /\ model_ok st
    /\ _K st = 2%nat /\ _D st = 1%nat /\ _V st = 1%nat
    /\ _data st = [(0%nat, [(0%nat, 1%positive)])]
    /\ _gamma st = repeat (map (fun a => a + INR 1 / INR 2) (_alpha st)) 1.
Proof.
  eexists. split; [reflexivity|].
  apply (initialize_sets_up_model [(0%nat, [(0%nat, 1%positive)])] 2
           [1 / 4; 1 / 2] [[1 / 2; 1 / 2]]).
  - reflexivity.
  - reflexivity.
  - reflexivity.
  - repeat constructor.
  - repeat constructor.
  - repeat constructor.
Defined.

Lemma inference_raises_without_gamma_rounds_witness :
  inference (fun x => x) (fun _ x => 2 / x) (fun _ => 0) no_rounds_config small_example
  = None.
Proof.
  apply (inference_raises_without_gamma_rounds (fun x => x) (fun _ x => 2 / x)
           (fun _ => 0) no_rounds_config small_example).
  - reflexivity.
  - discriminate.
Defined.

Lemma inference_raises_on_unknown_term_witness :
  inference (fun x => x) (fun _ x => 2 / x) (fun _ => 0) default_config
    unknown_term_example
  = None.
Proof.
  apply (inference_raises_on_unknown_term (fun x => x) (fun _ x => 2 / x) (fun _ => 0)
           default_config unknown_term_example 0 [(5%nat, 1%positive)] 5).
  - simpl. auto.
  - reflexivity.
  - simpl. auto.
  - simpl. lia.
Defined.

Lemma beta_entries_nonpositive_witness :
  exists st' L,
    inference (fun x => x) (fun _ x => 2 / x) (fun _ => 0) default_config small_example
    = Some (st', L)
    /\ Forall (Forall (fun x => x <= 0)) (_beta st').
Proof.
  destruct small_example_infers as (st' & L & H). exists st', L. split; [exact H|].
  assert (Hws : well_shaped small_example) by (split; repeat constructor).
  assert (Hnd : NoDup (map fst (_data small_example)))
    by (simpl; apply NoDup_singleton).
  apply (beta_entries_nonpositive (fun x => x) (fun _ x => 2 / x) (fun _ => 0)
           default_config small_example st' L Hws Hnd eq_refl H).
  apply (inference_column_sums_positive (fun x => x) (fun _ x => 2 / x) (fun _ => 0)
           default_config small_example st' L Hws Hnd eq_refl H).
  simpl. lia.
Defined.

Lemma phi_table_mass_witness :
  exists st' L,
    inference (fun x => x) (fun _ x => 2 / x) (fun _ => 0) default_config small_example
    = Some (st', L)
    /\ msum (_phi_table st') = INR (corpus_tokens (_data small_example)).
Proof.
  destruct small_example_infers as (st' & L & H). exists st', L. split; [exact H|].
  apply (phi_table_mass (fun x => x) (fun _ x => 2 / x) (fun _ => 0)
           default_config small_example st' L).
  - simpl. lia.
  - split; simpl; repeat constructor.
  - simpl. apply NoDup_singleton.
  - constructor; [simpl; apply NoDup_singleton | constructor].
  - exact H.
Defined.

Lemma symmetric_e_step_keeps_gamma_witness :
  let fresh := repeat (1 + INR 1 / INR 2) 2 in
  let entry := set_gamma newton_example (<[0%nat := fresh]> [[1; 1]]) in
  (exists phi,
      phi_iteration (fun x => x) entry 0 [(0%nat, 1%positive)] = Some (entry, phi, 0))
  /\ exists st' L,
       e_step_doc (fun x => x) default_config newton_example 0 = Some (st', L)
       /\ _gamma st' = <[0%nat := fresh]> [[1; 1]].
Proof.
  apply (symmetric_e_step_keeps_gamma (fun x => x) default_config newton_example 0
           [(0%nat, 1%positive)] 1).
  - reflexivity.
  - discriminate.
  - simpl. lia.
  - reflexivity.
  - repeat constructor. exists 0. reflexivity.
  - repeat constructor.
  - simpl. lia.
  - simpl. lia.
  - simpl. lra.
Defined.

(** ** Damping never rescues a refused step *)

Section Damping.

Variable psi : R -> R.
Variable polygamma : nat -> R -> R.
Variable cfg : config.
Variable Dn : R.
Variable ss : vec.

Lemma step_size_scale (alpha : vec) (decay : nat) :
  step_size psi polygamma cfg Dn ss alpha decay
  = map (fun s => alpha_update_decay_factor cfg ^ decay * s)
        (step_size psi polygamma cfg Dn ss alpha 0).
Proof.
  unfold step_size, vdiv, vmap2.
  generalize (vsub (alpha_gradient psi Dn ss alpha) (newton_c psi polygamma Dn ss alpha)).
  generalize (alpha_hessian polygamma Dn alpha).
  intros h x. revert h. induction x as [|a x IH]; intros [|b h]; simpl; try reflexivity.
  rewrite IH. f_equal. unfold Rdiv. ring.
Qed.

Lemma refused_at_every_decay (alpha : vec) :
  0 <= alpha_update_decay_factor cfg <= 1 ->
  all_positive alpha ->
  any_ge alpha (step_size psi polygamma cfg Dn ss alpha 0) = true ->
  forall d, any_ge alpha (step_size psi polygamma cfg Dn ss alpha d) = true.
Proof.
  intros Hf Hpos H0 d. rewrite step_size_scale.
  apply any_ge_true_iff in H0. destruct H0 as (k & a & s & Ha & Hs & Hge).
  apply any_ge_true_iff. exists k, a, (alpha_update_decay_factor cfg ^ d * s).
  split; [exact Ha|]. split.
  - rewrite list_lookup_fmap_Some. eauto.
  - unfold all_positive in Hpos. rewrite Forall_lookup in Hpos.
    pose proof (Hpos k a Ha) as Hap.
    assert (Hp : 0 <= alpha_update_decay_factor cfg ^ d <= 1).
    { split; [apply pow_le; lra|]. rewrite <- (pow1 d). apply pow_incr. lra. }
    destruct (Rle_dec 0 s); nra.
Qed.

End Damping.

(** X14.  On a positive [alpha] at which no division of the Newton step is by
    zero: when the step without damping is refused at line 187 (some [alpha_k]
    reaches its step), it is refused at every decay, and [update_alpha] leaves
    [self._alpha] as it was: with a decay factor between 0 and 1 the damping
    of lines 192-195 cannot turn a refused step into an accepted one. *)
Theorem update_alpha_refused_is_noop
    (psi : R -> R) (polygamma : nat -> R -> R) (cfg : config) (ss : vec) (st : model) :
  length ss = _K st -> length (_alpha st) = _K st ->
  divisors_nonzero polygamma (INR (_D st)) (_alpha st) ->
  0 <= alpha_update_decay_factor cfg <= 1 ->
  0 <= alpha_converge_threshold cfg ->
  all_positive (_alpha st) ->
  any_ge (_alpha st) (step_size psi polygamma cfg (INR (_D st)) ss (_alpha st) 0) = true ->
  update_alpha psi polygamma cfg st ss = Some st.
Proof.
  intros Hs Ha _ Hf Hthr Hpos H0. unfold update_alpha.
  rewrite Hs, Ha, !Nat.eqb_refl.
  rewrite newton_loop_stuck; [destruct st; reflexivity | | exact Hthr].
  apply refused_at_every_decay; assumption.
Qed.

Lemma update_alpha_refused_is_noop_witness :
  update_alpha (fun x => x) (fun _ x => 2 / x) default_config newton_example [0; 0]
  = Some newton_example.
Proof.
  apply (update_alpha_refused_is_noop (fun x => x) (fun _ x => 2 / x) default_config
           [0; 0] newton_example).
  - reflexivity.
  - reflexivity.
  - exact example_divisors.
  - simpl. lra.
  - simpl. lra.
  - repeat constructor; simpl; lra.
  - apply (example_refuses (fun x => x) (fun _ x => 2 / x)); lra.
Defined.

(** ** The order of the documents in the loop of [inference] *)

Lemma vadd_swap (o a b : vec) : vadd (vadd o a) b = vadd (vadd o b) a.
Proof.
  unfold vadd, vmap2. revert a b.
  induction o as [|x o IH]; intros [|y a] [|z b]; simpl; try reflexivity.
  rewrite IH. f_equal. ring.
Qed.

Lemma added_row_none (ids : list nat) (X : matrix) (v : nat) :
  ~ In v ids -> added_row ids X v = None.
Proof.
  revert X. induction ids as [|t ids IH]; intros [|x X] H; simpl in *; try reflexivity.
  destruct (Nat.eqb_spec t v) as [-> | _]; [tauto|]. apply IH. tauto.
Qed.

(** Line 151 row by row. *)
Lemma scatter_add_at (ids : list nat) :
  forall (T X T' : matrix),
    NoDup ids ->
    scatter_add T ids X = Some T' ->
    forall v,
      T' !! v = match added_row ids X v with
                | Some x => (fun o => vadd o x) <$> T !! v
                | None => T !! v
                end.
Proof.
  induction ids as [|t ids IH]; intros T X T' Hnd H v.
  - unfold scatter_add in H. simpl in H. injection H as <-. reflexivity.
  - destruct X as [|x X].
    + unfold scatter_add in H. destruct (rows_at T (t :: ids)) as [old|]; [|discriminate].
      simpl in H. rewrite combine_nil in H. simpl in H. injection H as <-. reflexivity.
    + apply NoDup_cons in Hnd as [Hout Hnd].
      assert (Hout' : ~ In t ids) by (intros Hin; apply Hout, list_elem_of_In, Hin).
      destruct (T !! t) as [o|] eqn:Ht.
      * rewrite (scatter_add_cons T t ids o x X Hout' Ht) in H.
        rewrite (IH _ _ _ Hnd H v). simpl.
        destruct (Nat.eqb_spec t v) as [<- | Hne].
        -- rewrite (added_row_none ids X t Hout'), Ht. simpl.
           apply list_lookup_insert_eq. eapply lookup_lt_Some, Ht.
        -- rewrite list_lookup_insert_ne by exact Hne. reflexivity.
      * unfold scatter_add, rows_at in H. simpl in H. rewrite Ht in H. discriminate.
Qed.

Lemma scatter_add_commute (T : matrix) (ids1 ids2 : list nat) (X1 X2 : matrix)
    (T1 T2 T12 T21 : matrix) :
  NoDup ids1 -> NoDup ids2 ->
  scatter_add T ids1 X1 = Some T1 -> scatter_add T1 ids2 X2 = Some T12 ->
  scatter_add T ids2 X2 = Some T2 -> scatter_add T2 ids1 X1 = Some T21 ->
  T21 = T12.
Proof.
  intros N1 N2 H1 H12 H2 H21. apply list_eq. intros v.
  rewrite (scatter_add_at ids1 T2 X1 T21 N1 H21 v).
  rewrite (scatter_add_at ids2 T1 X2 T12 N2 H12 v).
  rewrite (scatter_add_at ids2 T X2 T2 N2 H2 v).
  rewrite (scatter_add_at ids1 T X1 T1 N1 H1 v).
  destruct (added_row ids1 X1 v) as [x1|], (added_row ids2 X2 v) as [x2|],
    (T !! v) as [o|]; simpl; try reflexivity.
  f_equal. apply vadd_swap.
Qed.

Lemma scatter_add_total (T : matrix) (ids : list nat) (X : matrix) :
  Forall (fun t => (t < length T)%nat) ids -> is_Some (scatter_add T ids X).
Proof.
  intros H. unfold scatter_add.
  destruct (rows_at_total T ids H) as [old ->]. simpl. eauto.
Qed.

Lemma scatter_add_bound (T : matrix) (ids : list nat) (X T' : matrix) :
  scatter_add T ids X = Some T' ->
  Forall (fun t => (t < length T)%nat) ids /\ length T' = length T.
Proof.
  intros H. split; [|apply (scatter_add_lookup T ids X T' H)].
  unfold scatter_add in H. destruct (rows_at T ids) as [old|] eqn:E; [|discriminate].
  apply (rows_at_bound T ids old E).
Qed.

Lemma set_tables_same (st : model) :
  set_phi_table (set_gamma st (_gamma st)) (_phi_table st) = st.
Proof. destruct st; reflexivity. Qed.

Section EStepOrder.

Variable psi : R -> R.
Variable cfg : config.

(** A round of the loop of [update_phi] reads of [self._gamma] the row of the
    document only, and nothing of [self._phi_table]. *)
Lemma phi_iteration_tables st g T doc fd a' phi mc :
  phi_iteration psi (set_phi_table (set_gamma st g) T) doc fd = Some (a', phi, mc) ->
  exists row upd,
    g !! doc = Some row
    /\ a' = set_phi_table (set_gamma st (<[doc := upd]> g)) T
    /\ forall g2 T2,
         g2 !! doc = Some row ->
         phi_iteration psi (set_phi_table (set_gamma st g2) T2) doc fd
         = Some (set_phi_table (set_gamma st (<[doc := upd]> g2)) T2, phi, mc).
Proof.
  unfold phi_iteration. simpl.
  destruct (rows_at_array (_beta st) (term_ids fd)) as [beta_rows|]; [|discriminate].
  simpl. destruct (g !! doc) as [row|] eqn:Hrow; [|discriminate]. simpl.
  intros [= <- <- <-]. exists row. eexists. split; [reflexivity|].
  split; [reflexivity|]. intros g2 T2 H2. rewrite H2. reflexivity.
Qed.

Lemma gamma_loop_tables (n : nat) :
  forall st g T doc fd last a' phi row,
    g !! doc = Some row ->
    gamma_loop psi cfg n (set_phi_table (set_gamma st g) T) doc fd last = Some (a', phi) ->
    exists r,
      a' = set_phi_table (set_gamma st (<[doc := r]> g)) T
      /\ forall g2 T2,
           g2 !! doc = Some row ->
           gamma_loop psi cfg n (set_phi_table (set_gamma st g2) T2) doc fd last
           = Some (set_phi_table (set_gamma st (<[doc := r]> g2)) T2, phi).
Proof.
  induction n as [|n IH]; intros st g T doc fd last a' phi row Hrow; simpl.
  - destruct last as [p|]; simpl; [|discriminate]. intros [= <- <-].
    exists row. rewrite (list_insert_id g doc row Hrow). split; [reflexivity|].
    intros g2 T2 H2. rewrite (list_insert_id g2 doc row H2). reflexivity.
  - destruct (phi_iteration psi (set_phi_table (set_gamma st g) T) doc fd)
      as [[[a1 phi1] mc]|] eqn:E; simpl; [|discriminate].
    destruct (phi_iteration_tables _ _ _ _ _ _ _ _ E) as (row0 & upd & Hrow0 & -> & Hall).
    rewrite Hrow in Hrow0. injection Hrow0 as <-.
    destruct (Rleb mc (gamma_converge_threshold cfg)) eqn:Hc.
    + intros [= <- <-]. exists upd. split; [reflexivity|].
      intros g2 T2 H2. rewrite (Hall g2 T2 H2). simpl. rewrite Hc. reflexivity.
    + intros H.
      assert (Hup : <[doc := upd]> g !! doc = Some upd).
      { apply list_lookup_insert_eq. eapply lookup_lt_Some, Hrow. }
      destruct (IH st (<[doc := upd]> g) T doc fd (Some phi1) a' phi upd Hup H)
        as (r & -> & Hall').
      exists r. rewrite list_insert_insert_eq. split; [reflexivity|].
      intros g2 T2 H2. rewrite (Hall g2 T2 H2). simpl. rewrite Hc.
      rewrite (Hall' (<[doc := upd]> g2) T2).
      * rewrite list_insert_insert_eq. reflexivity.
      * apply list_lookup_insert_eq. eapply lookup_lt_Some, H2.
Qed.

Lemma update_phi_tables st g T doc a' L row :
  g !! doc = Some row ->
  update_phi psi cfg (set_phi_table (set_gamma st g) T) doc = Some (a', L) ->
  exists fd r X T',
    data_get (_data st) doc = Some fd
    /\ a' = set_phi_table (set_gamma st (<[doc := r]> g)) T'
    /\ scatter_add T (term_ids fd) X = Some T'
    /\ forall g2 T2 T2',
         g2 !! doc = Some row ->
         scatter_add T2 (term_ids fd) X = Some T2' ->
         update_phi psi cfg (set_phi_table (set_gamma st g2) T2) doc
         = Some (set_phi_table (set_gamma st (<[doc := r]> g2)) T2', L).
Proof.
  intros Hrow. unfold update_phi. simpl.
  destruct (data_get (_data st) doc) as [fd|] eqn:Hd; [|discriminate]. simpl.
  destruct (gamma_loop psi cfg (gamma_maximum_iteration cfg)
              (set_phi_table (set_gamma st g) T) doc fd None)
    as [[a1 phi]|] eqn:E; simpl; [|discriminate].
  destruct (gamma_loop_tables _ _ _ _ _ _ _ _ _ _ Hrow E) as (r & -> & Hall). simpl.
  destruct (rows_at (_beta st) (term_ids fd)) as [beta_rows|] eqn:Hb; [|discriminate].
  simpl.
  destruct (scatter_add T (term_ids fd) (mexp phi)) as [T'|] eqn:Hs; [|discriminate].
  simpl. intros [= <- <-]. exists fd, r, (mexp phi), T'.
  split; [reflexivity|]. split; [reflexivity|]. split; [exact Hs|].
  intros g2 T2 T2' H2 Hs2. rewrite (Hall g2 T2 H2). simpl. rewrite Hb. simpl.
  rewrite Hs2. reflexivity.
Qed.

(** The E-step of a document reads neither [self._gamma] nor
    [self._phi_table]: from another pair of tables it writes the same row and
    adds the same rows, and returns the same likelihood term. *)
Lemma e_step_doc_tables st g T doc a' L :
  e_step_doc psi cfg (set_phi_table (set_gamma st g) T) doc = Some (a', L) ->
  exists fd r X T',
    data_get (_data st) doc = Some fd
    /\ a' = set_phi_table (set_gamma st (<[doc := r]> g)) T'
    /\ scatter_add T (term_ids fd) X = Some T'
    /\ forall g2 T2 T2',
         length g2 = length g ->
         scatter_add T2 (term_ids fd) X = Some T2' ->
         e_step_doc psi cfg (set_phi_table (set_gamma st g2) T2) doc
         = Some (set_phi_table (set_gamma st (<[doc := r]> g2)) T2', L).
Proof.
  unfold e_step_doc. simpl.
  destruct (data_get (_data st) doc) as [fd|] eqn:Hd; [|discriminate]. simpl.
  destruct (_K st =? 0)%nat eqn:HK; [discriminate|].
  destruct (Nat.ltb_spec doc (length g)) as [Hlt | _]; [|discriminate].
  set (fresh := map (fun a => a + INR (freq_N fd) / INR (_K st)) (_alpha st)).
  change (set_gamma (set_phi_table (set_gamma st g) T) (<[doc := fresh]> g))
    with (set_phi_table (set_gamma st (<[doc := fresh]> g)) T).
  intros H.
  assert (Hf : <[doc := fresh]> g !! doc = Some fresh)
    by (apply list_lookup_insert_eq; exact Hlt).
  destruct (update_phi_tables st _ T doc a' L fresh Hf H)
    as (fd' & r & X & T' & Hd' & -> & Hs & Hall).
  rewrite Hd in Hd'. injection Hd' as <-.
  exists fd, r, X, T'. split; [reflexivity|].
  rewrite list_insert_insert_eq. split; [reflexivity|]. split; [exact Hs|].
  intros g2 T2 T2' Hl Hs2.
  destruct (Nat.ltb_spec doc (length g2)) as [Hlt2 | Hge]; [|lia].
  change (set_gamma (set_phi_table (set_gamma st g2) T2) (<[doc := fresh]> g2))
    with (set_phi_table (set_gamma st (<[doc := fresh]> g2)) T2).
  rewrite (Hall (<[doc := fresh]> g2) T2 T2').
  - rewrite list_insert_insert_eq. reflexivity.
  - apply list_lookup_insert_eq. exact Hlt2.
  - exact Hs2.
Qed.

(** Two different documents can be taken in either order. *)
Lemma e_step_doc_swap st d1 d2 s1 s12 L1 L2 :
  d1 <> d2 ->
  (forall d fd, data_get (_data st) d = Some fd -> NoDup (term_ids fd)) ->
  e_step_doc psi cfg st d1 = Some (s1, L1) ->
  e_step_doc psi cfg s1 d2 = Some (s12, L2) ->
  exists s2,
    e_step_doc psi cfg st d2 = Some (s2, L2)
    /\ e_step_doc psi cfg s2 d1 = Some (s12, L1).
Proof.
  intros Hne Hnd H1 H2.
  rewrite <- (set_tables_same st) in H1.
  destruct (e_step_doc_tables _ _ _ _ _ _ H1) as (fd1 & r1 & X1 & T1 & Hd1 & -> & Hs1 & U1).
  destruct (e_step_doc_tables _ _ _ _ _ _ H2) as (fd2 & r2 & X2 & T12 & Hd2 & -> & Hs12 & U2).
  destruct (scatter_add_bound _ _ _ _ Hs1) as [Hb1 Hl1].
  destruct (scatter_add_bound _ _ _ _ Hs12) as [Hb2 Hl12].
  destruct (scatter_add_total (_phi_table st) (term_ids fd2) X2) as [T2 Hs2].
  { rewrite <- Hl1. exact Hb2. }
  destruct (scatter_add_bound _ _ _ _ Hs2) as [_ Hl2].
  destruct (scatter_add_total T2 (term_ids fd1) X1) as [T21 Hs21].
  { rewrite Hl2. exact Hb1. }
  exists (set_phi_table (set_gamma st (<[d2 := r2]> (_gamma st))) T2). split.
  - rewrite <- (set_tables_same st) at 1.
    apply (U2 (_gamma st) (_phi_table st) T2); [|exact Hs2].
    rewrite length_insert. reflexivity.
  - rewrite (U1 (<[d2 := r2]> (_gamma st)) T2 T21); [|apply length_insert | exact Hs21].
    rewrite (list_insert_insert_ne (_gamma st) d1 d2 r1 r2 Hne).
    rewrite (scatter_add_commute (_phi_table st) (term_ids fd1) (term_ids fd2)
               X1 X2 T1 T2 T12 T21); auto.
    + apply (Hnd d1 fd1 Hd1).
    + apply (Hnd d2 fd2 Hd2).
Qed.

Lemma e_step_pass_permuted (docs docs' : list nat) :
  Permutation docs docs' ->
  forall st acc s L,
    NoDup docs ->
    (forall d fd, data_get (_data st) d = Some fd -> NoDup (term_ids fd)) ->
    e_step_pass psi cfg docs st acc = Some (s, L) ->
    e_step_pass psi cfg docs' st acc = Some (s, L).
Proof.
  induction 1 as [|x l l' Hp IH|x y l|l l' l'' Hp1 IH1 Hp2 IH2];
    intros st acc s L Hnd Hterms H.
  - exact H.
  - simpl in *. destruct (e_step_doc psi cfg st x) as [[s1 L1]|] eqn:E; [|discriminate].
    simpl in *. apply NoDup_cons in Hnd as [_ Hnd].
    apply IH; [exact Hnd| |exact H].
    destruct (e_step_doc_frame _ _ _ _ _ _ E) as ((_ & _ & _ & Hdata) & _).
    rewrite Hdata. exact Hterms.
  - simpl in *.
    destruct (e_step_doc psi cfg st y) as [[s1 L1]|] eqn:E1; [|discriminate]. simpl in H.
    destruct (e_step_doc psi cfg s1 x) as [[s12 L2]|] eqn:E2; [|discriminate]. simpl in H.
    assert (Hne : y <> x).
    { apply NoDup_cons in Hnd as [Hout _]. intros ->. apply Hout. left. }
    destruct (e_step_doc_swap st y x s1 s12 L1 L2 Hne Hterms E1 E2) as (s2 & E3 & E4).
    rewrite E3. simpl. rewrite E4. simpl.
    replace (acc + L2 + L1) with (acc + L1 + L2) by ring. exact H.
  - apply IH2; [rewrite <- Hp1; exact Hnd | exact Hterms|].
    apply IH1; assumption.
Qed.

End EStepOrder.

(** X16.  In exact arithmetic the loop of lines 97-106 does not depend on the
    order in which [self._data.keys()] yields the documents: taken in another
    order, distinct documents with distinct term ids leave the same state and
    the same [likelihood_phi], and the loop raises in one order exactly when
    it raises in the other. *)
Theorem e_step_order_independent
    (psi : R -> R) (cfg : config) (docs docs' : list nat) (st : model) (acc : R) :
  Permutation docs docs' ->
  NoDup docs ->
  Forall (fun d => NoDup (term_ids (snd d))) (_data st) ->
  e_step_pass psi cfg docs' st acc = e_step_pass psi cfg docs st acc.
Proof.
  intros Hp Hnd Hterms.
  assert (Ht : forall d fd, data_get (_data st) d = Some fd -> NoDup (term_ids fd)).
  { intros d fd Hd. rewrite List.Forall_forall in Hterms.
    apply (Hterms (d, fd)). apply data_get_elem, Hd. }
  destruct (e_step_pass psi cfg docs st acc) as [[s L]|] eqn:E.
  - apply (e_step_pass_permuted psi cfg docs docs' Hp st acc s L Hnd Ht E).
  - destruct (e_step_pass psi cfg docs' st acc) as [[s L]|] eqn:E'; [|reflexivity].
    assert (Hnd' : NoDup docs') by (rewrite <- Hp; exact Hnd).
    symmetry in Hp.
    rewrite (e_step_pass_permuted psi cfg docs' docs Hp st acc s L Hnd' Ht E') in E.
    discriminate.
Qed.

Lemma two_document_example_ok : pass_ok two_document_example.
Proof.
  split; [split|..]; simpl; try reflexivity; try lia;
    repeat constructor; simpl; lra.
Qed.

Lemma e_step_order_independent_witness :
  exists s L,
    e_step_pass (fun x => x) default_config [0%nat; 1%nat] two_document_example 0
    = Some (s, L)
    /\ e_step_pass (fun x => x) default_config [1%nat; 0%nat] two_document_example 0
       = Some (s, L).
Proof.
  assert (Hdocs : Forall (fun d => In d (map fst (_data two_document_example)))
                         [0%nat; 1%nat])
    by (repeat constructor; simpl; auto).
  assert (Hne : Forall (fun d => snd d <> []) (_data two_document_example))
    by (simpl; constructor; [discriminate | constructor; [discriminate | constructor]]).
  assert (Hne' : forall d fd, In d [0%nat; 1%nat] ->
                   data_get (_data two_document_example) d = Some fd ->
                   term_ids fd <> []).
  { intros d fd Hin Hd. apply (nonempty_docs_lookup _ Hne d fd); [|exact Hd].
    simpl in *. tauto. }
  destruct (e_step_pass_ok (fun x => x) default_config default_rounds
              [0%nat; 1%nat] two_document_example 0 two_document_example_ok Hdocs Hne')
    as (s & L & H & _).
  exists s, L. split; [exact H|]. rewrite <- H.
  apply (e_step_order_independent (fun x => x) default_config
           [0%nat; 1%nat] [1%nat; 0%nat] two_document_example 0).
  - apply perm_swap.
  - apply NoDup_cons. split; [rewrite list_elem_of_singleton; lia | apply NoDup_singleton].
  - simpl. constructor; [|constructor; [|constructor]]; simpl.
    + apply NoDup_cons. split; [rewrite list_elem_of_singleton; lia | apply NoDup_singleton].
    + apply NoDup_singleton.
Defined.

(** ** The [self._beta] that [_initialize] builds *)

Lemma vadd_shift (c d : R) (r s : vec) :
  vadd (map (fun u => c + u) r) (map (fun x => d + x) s)
  = map (fun x => (d + c) + x) (vadd r s).
Proof.
  unfold vadd, vmap2. revert s.
  induction r as [|a r IH]; intros [|b s]; simpl; try reflexivity.
  rewrite IH. f_equal. ring.
Qed.

Lemma colsum_shift (k : nat) (c : R) (m : matrix) :
  colsum k (map (map (fun u => c + u)) m)
  = map (fun s => INR (length m) * c + s) (colsum k m).
Proof.
  unfold colsum. induction m as [|r m IH].
  - simpl. rewrite map_repeat. f_equal. ring.
  - cbn [map fold_right length]. rewrite IH, vadd_shift, S_INR.
    apply map_ext. intros x. ring.
Qed.

Lemma mexp_ln_shift (c : R) (m : matrix) :
  0 < c ->
  Forall (Forall (fun u => 0 <= u)) m ->
  mexp (map (map (fun u => ln (c + u))) m) = map (map (fun u => c + u)) m.
Proof.
  intros Hc Hm. unfold mexp. rewrite map_map. apply map_ext_Forall.
  eapply Forall_impl; [exact Hm|]. intros r Hr. simpl. rewrite map_map.
  apply map_ext_Forall. eapply Forall_impl; [exact Hr|]. intros u Hu. simpl.
  apply exp_ln. lra.
Qed.

(** X17.  The [self._beta] that [_initialize] builds is not the logarithm of
    distributions over the vocabulary: for draws that are not negative, the
    exponentials of the column of a topic sum to one plus the sum of the
    draws of that column. *)
Theorem initialize_beta_not_normalised
    (data : corpus) (K : nat) (draw_alpha : vec) (draw_beta : matrix) (st : model) :
  _initialize data K draw_alpha draw_beta = Some st ->
  length draw_beta = length (vocab_of data) ->
  Forall (Forall (fun u => 0 <= u)) draw_beta ->
  colsum (_K st) (mexp (_beta st)) = map (fun s => 1 + s) (colsum K draw_beta).
Proof.
  unfold _initialize. cbv zeta.
  destruct (Nat.eqb_spec K 0) as [|HK]; [discriminate|].
  destruct (Nat.eqb_spec (length (vocab_of data)) 0) as [|HV]; [discriminate|].
  intros [= <-] Hl Hpos. simpl.
  assert (HV' : 0 < INR (length (vocab_of data))) by (apply lt_0_INR; lia).
  rewrite mexp_ln_shift; [|apply Rdiv_lt_0_compat; lra | exact Hpos].
  rewrite colsum_shift, Hl. apply map_ext. intros s. field. lra.
Qed.

Lemma initialize_beta_not_normalised_witness :
  exists st,
    _initialize [(0%nat, [(0%nat, 1%positive)])] 2 [1 / 2; 1 / 4] [[1 / 2; 0]] = Some st
    /\ colsum (_K st) (mexp (_beta st)) = map (fun s => 1 + s) (colsum 2 [[1 / 2; 0]]).
Proof.
  eexists. split; [reflexivity|].
  apply (initialize_beta_not_normalised [(0%nat, [(0%nat, 1%positive)])] 2
           [1 / 2; 1 / 4] [[1 / 2; 0]]).
  - reflexivity.
  - reflexivity.
  - repeat constructor; lra.
Defined.

(** ** The rows of [self._gamma] at the start of an outer iteration *)

Section GammaReset.

Variable psi : R -> R.
Variable cfg : config.

Lemma e_step_doc_lt st doc st' L :
  e_step_doc psi cfg st doc = Some (st', L) ->
  _K st <> 0%nat /\ (doc < length (_gamma st))%nat.
Proof.
  unfold e_step_doc. destruct (data_get (_data st) doc); [|discriminate]. simpl.
  destruct (Nat.eqb_spec (_K st) 0); [discriminate|].
  destruct (Nat.ltb_spec doc (length (_gamma st))); [auto | discriminate].
Qed.

(** The pass over the documents reads of [self._gamma] its number of rows
    only: from another matrix of as many rows it adds the same rows to the
    table, returns the same likelihood, and writes the same rows for the
    documents; the rows that belong to no document are left alone. *)
Lemma e_step_pass_tables (docs : list nat) :
  forall st g T acc s L,
    e_step_pass psi cfg docs (set_phi_table (set_gamma st g) T) acc = Some (s, L) ->
    exists g1 T1,
      s = set_phi_table (set_gamma st g1) T1
      /\ length g1 = length g
      /\ (forall i, ~ In i docs -> g1 !! i = g !! i)
      /\ forall g2,
           length g2 = length g ->
           exists g3,
             e_step_pass psi cfg docs (set_phi_table (set_gamma st g2) T) acc
             = Some (set_phi_table (set_gamma st g3) T1, L)
             /\ length g3 = length g2
             /\ (forall i, In i docs -> g3 !! i = g1 !! i)
             /\ (forall i, ~ In i docs -> g3 !! i = g2 !! i).
Proof.
  induction docs as [|d docs IH]; intros st g T acc s L H.
  - simpl in H. injection H as <- <-. exists g, T.
    split; [reflexivity|]. split; [reflexivity|]. split; [reflexivity|].
    intros g2 _. exists g2. simpl. split; [reflexivity|]. split; [reflexivity|].
    split; [intros i []|reflexivity].
  - simpl in H.
    destruct (e_step_doc psi cfg (set_phi_table (set_gamma st g) T) d)
      as [[a' L1]|] eqn:E; [|discriminate].
    simpl in H.
    destruct (e_step_doc_lt _ _ _ _ E) as [_ Hlt]. simpl in Hlt.
    destruct (e_step_doc_tables psi cfg st g T d a' L1 E)
      as (fd & r & X & T' & Hd & -> & Hs & U).
    destruct (IH st (<[d := r]> g) T' (acc + L1) s L H)
      as (g1 & T1 & -> & Hl1 & Hout1 & Hall).
    rewrite length_insert in Hl1.
    exists g1, T1. split; [reflexivity|]. split; [exact Hl1|]. split.
    { intros i Hi. rewrite Hout1 by (simpl in Hi; tauto).
      apply list_lookup_insert_ne. simpl in Hi. intros ->. tauto. }
    intros g2 Hl2.
    destruct (Hall (<[d := r]> g2)) as (g3 & Hpass & Hl3 & Hin3 & Hout3).
    { rewrite !length_insert. exact Hl2. }
    exists g3. simpl. rewrite (U g2 T T' Hl2 Hs). simpl.
    split; [exact Hpass|]. rewrite length_insert in Hl3. split; [exact Hl3|]. split.
    + intros i Hi. destruct (in_dec Nat.eq_dec i docs) as [Hrest | Hrest].
      * apply Hin3, Hrest.
      * destruct Hi as [<- | Hi]; [|contradiction].
        rewrite (Hout3 d Hrest), (Hout1 d Hrest).
        rewrite !list_lookup_insert_eq; [reflexivity | exact Hlt | lia].
    + intros i Hi. rewrite Hout3 by (simpl in Hi; tauto).
      apply list_lookup_insert_ne. simpl in Hi. intros ->. tauto.
Qed.

(** Every document of the pass is given to [update_phi] with the row
    [alpha + N_d / K] (line 103), and the row the pass leaves for the document
    is the one that call wrote. *)
Lemma e_step_pass_starts_fresh (docs : list nat) :
  forall st acc s L,
    e_step_pass psi cfg docs st acc = Some (s, L) ->
    forall d fd,
      In d docs -> data_get (_data st) d = Some fd ->
      exists entry s' L',
        same_corpus st entry /\ _alpha entry = _alpha st /\ _beta entry = _beta st
        /\ _gamma entry !! d
           = Some (map (fun a => a + INR (freq_N fd) / INR (_K st)) (_alpha st))
        /\ update_phi psi cfg entry d = Some (s', L')
        /\ _gamma s !! d = _gamma s' !! d.
Proof.
  induction docs as [|x docs IH]; intros st acc s L H d fd Hin Hd; [destruct Hin|].
  simpl in H. destruct (e_step_doc psi cfg st x) as [[s1 L1]|] eqn:E; [|discriminate].
  simpl in H.
  destruct (e_step_doc_frame psi cfg _ _ _ _ E) as (Hsame & Ha & Hb).
  destruct (in_dec Nat.eq_dec d docs) as [Hrest | Hrest].
  - destruct Hsame as (HK & HD & HV & Hdata).
    destruct (IH s1 (acc + L1) s L H d fd Hrest) as
      (entry & s' & L' & (HK' & HD' & HV' & Hdata') & Ha' & Hb' & Hrow & Hup & Hfin).
    { rewrite Hdata. exact Hd. }
    exists entry, s', L'. unfold same_corpus.
    split; [repeat split; congruence|]. split; [congruence|]. split; [congruence|].
    split; [|auto]. rewrite Hrow, HK, Ha. reflexivity.
  - destruct Hin as [-> | Hin]; [|contradiction].
    destruct (e_step_doc_lt _ _ _ _ E) as [HK0 Hlt].
    rewrite (e_step_doc_resets psi cfg st d fd Hd HK0 Hlt) in E.
    eexists. exists s1, L1. split; [|split; [|split; [|split; [|split; [exact E|]]]]].
    + unfold same_corpus. simpl. auto.
    + reflexivity.
    + reflexivity.
    + simpl. apply list_lookup_insert_eq, Hlt.
    + rewrite <- (set_tables_same s1) in H.
      destruct (e_step_pass_tables docs _ _ _ _ _ _ H) as (g1 & T1 & -> & _ & Hout & _).
      simpl. apply Hout, Hrest.
Qed.

End GammaReset.

Section GammaResetInference.

Variable psi : R -> R.
Variable polygamma : nat -> R -> R.
Variable gammaln : R -> R.
Variable cfg : config.

Lemma inference_gamma (st st' : model) (L : R) :
  inference psi polygamma gammaln cfg st = Some (st', L) ->
  exists st1 acc,
    e_step_pass psi cfg (map fst (_data st))
      (set_phi_table st (repeat (repeat 0 (_K st)) (_V st))) 0 = Some (st1, acc)
    /\ _gamma st' = _gamma st1.
Proof.
  unfold inference. cbv zeta. simpl.
  destruct (e_step_pass _ _ _ _ _) as [[st1 acc]|] eqn:E; simpl; [|discriminate].
  destruct (update_alpha _ _ _ _ _) as [st3|] eqn:U; simpl; [|discriminate].
  apply update_alpha_form in U as [a ->].
  intros [= <- _]. exists st1, acc. auto.
Qed.

(** What [inference] returns does not depend on the rows that [self._gamma]
    holds for the documents when it is called. *)
Lemma inference_forgets_rows (st : model) (ga gb : matrix) r :
  length gb = length ga ->
  (forall i, ~ In i (map fst (_data st)) -> gb !! i = ga !! i) ->
  inference psi polygamma gammaln cfg (set_gamma st ga) = Some r ->
  inference psi polygamma gammaln cfg (set_gamma st gb) = Some r.
Proof.
  intros Hl Hout. unfold inference. cbv zeta. simpl.
  destruct (e_step_pass psi cfg (map fst (_data st))
              (set_phi_table (set_gamma st ga) (repeat (repeat 0 (_K st)) (_V st))) 0)
    as [[s1 Lphi]|] eqn:E; [|discriminate].
  destruct (e_step_pass_tables psi cfg _ _ _ _ _ _ _ E)
    as (g1 & T1 & -> & Hl1 & Hout1 & Hall).
  destruct (Hall gb Hl) as (g3 & -> & Hl3 & Hin3 & Hout3).
  assert (E3 : g3 = g1).
  { apply list_eq. intros i.
    destruct (in_dec Nat.eq_dec i (map fst (_data st))) as [Hi | Hi].
    - apply Hin3, Hi.
    - rewrite (Hout3 i Hi), (Hout1 i Hi). apply Hout, Hi. }
  rewrite E3. intros H. exact H.
Qed.

End GammaResetInference.

(** C7.  Each call of [inference] starts every document from
    [alpha + N_d / K] and discards the row that [self._gamma] held for it:
    with other rows for the documents in [self._gamma] the call returns the
    same likelihood and leaves the same state (or raises alike); and when it
    returns, for every document [update_phi] was called on a state whose row
    for the document is [alpha + N_d / K], and the row that [inference]
    leaves for the document is the one this call wrote. *)
Theorem gamma_reset_each_iteration
    (psi : R -> R) (polygamma : nat -> R -> R) (gammaln : R -> R) (cfg : config)
    (st : model) (previous : matrix) :
  length previous = length (_gamma st) ->
  (forall i, ~ In i (map fst (_data st)) -> previous !! i = _gamma st !! i) ->
  inference psi polygamma gammaln cfg (set_gamma st previous)
  = inference psi polygamma gammaln cfg st
  /\ forall st' L,
       inference psi polygamma gammaln cfg st = Some (st', L) ->
       forall d fd,
         In d (map fst (_data st)) -> data_get (_data st) d = Some fd ->
         exists entry s' L',
           same_corpus st entry /\ _alpha entry = _alpha st /\ _beta entry = _beta st
           /\ _gamma entry !! d
              = Some (map (fun a => a + INR (freq_N fd) / INR (_K st)) (_alpha st))
           /\ update_phi psi cfg entry d = Some (s', L')
           /\ _gamma st' !! d = _gamma s' !! d.
Proof.
  intros Hl Hout. split.
  - destruct (inference psi polygamma gammaln cfg st) as [r|] eqn:E.
    + rewrite <- (set_gamma_same st) in E.
      apply (inference_forgets_rows psi polygamma gammaln cfg st (_gamma st) previous r
               Hl Hout E).
    + destruct (inference psi polygamma gammaln cfg (set_gamma st previous))
        as [r|] eqn:E'; [|reflexivity].
      rewrite <- (set_gamma_same st) in E.
      rewrite (inference_forgets_rows psi polygamma gammaln cfg st previous (_gamma st) r)
        in E; [discriminate | symmetry; exact Hl | | exact E'].
      intros i Hi. symmetry. apply Hout, Hi.
  - intros st' L Hinf d fd Hin Hd.
    destruct (inference_gamma psi polygamma gammaln cfg st st' L Hinf)
      as (st1 & acc & Hpass & Hg).
    destruct (e_step_pass_starts_fresh psi cfg _ _ _ _ _ Hpass d fd Hin Hd)
      as (entry & s' & L' & Hsame & Ha & Hb & Hrow & Hup & Hfin).
    exists entry, s', L'. rewrite Hg. auto 10.
Qed.

(** C9 (the code breaks it).  For a document with no occurring term the E-step
    raises: [numpy.array] of no key is an array of floats, and line 133 indexes
    [self._beta] with it (IndexError).  [update_phi] and the body of the loop
    of [inference] raise for such a document in every state, and [inference]
    raises on every corpus that holds one. *)
Theorem empty_document_raises
    (psi : R -> R) (polygamma : nat -> R -> R) (gammaln : R -> R) (cfg : config)
    (st : model) (doc : nat) :
  data_get (_data st) doc = Some [] ->
  update_phi psi cfg st doc = None
  /\ e_step_doc psi cfg st doc = None
  /\ (In doc (map fst (_data st)) ->
      inference psi polygamma gammaln cfg st = None).
Proof.
  intros Hd. split; [|split].
  - unfold update_phi. rewrite Hd. simpl.
    destruct (gamma_maximum_iteration cfg); reflexivity.
  - destruct (e_step_doc psi cfg st doc) as [[st' L]|] eqn:E; [|reflexivity].
    exfalso. apply (e_step_doc_nonempty psi cfg st doc [] st' L Hd E). reflexivity.
  - intros Hin.
    destruct (inference psi polygamma gammaln cfg st) as [[st' L]|] eqn:E; [|reflexivity].
    exfalso.
    apply (inference_nonempty psi polygamma gammaln cfg st st' L E doc [] Hin Hd).
    reflexivity.
Qed.

Lemma two_document_example_infers :
  exists st' L,
    inference (fun x => x) (fun _ x => 2 / x) (fun _ => 0) default_config
      two_document_example = Some (st', L).
Proof.
  assert (Hne : Forall (fun d => snd d <> []) (_data two_document_example))
    by (simpl; constructor; [discriminate | constructor; [discriminate | constructor]]).
  destruct (inference_ok (fun x => x) (fun _ x => 2 / x) (fun _ => 0) default_config
              default_rounds two_document_example
              (pass_model _ two_document_example_ok)
              (nonempty_docs_lookup _ Hne)) as (st' & L & H & _).
  eauto.
Qed.

Lemma gamma_reset_each_iteration_witness :
  let previous := [[5; 7]; [8; 9]] in
  (exists st' L,
      inference (fun x => x) (fun _ x => 2 / x) (fun _ => 0) default_config
        two_document_example = Some (st', L))
  /\ inference (fun x => x) (fun _ x => 2 / x) (fun _ => 0) default_config
       (set_gamma two_document_example previous)
     = inference (fun x => x) (fun _ x => 2 / x) (fun _ => 0) default_config
         two_document_example
  /\ forall st' L,
       inference (fun x => x) (fun _ x => 2 / x) (fun _ => 0) default_config
         two_document_example = Some (st', L) ->
       forall d fd,
         In d (map fst (_data two_document_example)) ->
         data_get (_data two_document_example) d = Some fd ->
         exists entry s' L',
           same_corpus two_document_example entry
           /\ _alpha entry = _alpha two_document_example
           /\ _beta entry = _beta two_document_example
           /\ _gamma entry !! d
              = Some (map (fun a => a + INR (freq_N fd) / INR (_K two_document_example))
                          (_alpha two_document_example))
           /\ update_phi (fun x => x) default_config entry d = Some (s', L')
           /\ _gamma st' !! d = _gamma s' !! d.
Proof.
  split; [exact two_document_example_infers|].
  apply (gamma_reset_each_iteration (fun x => x) (fun _ x => 2 / x) (fun _ => 0)
           default_config two_document_example [[5; 7]; [8; 9]]).
  - reflexivity.
  - intros [|[|i]] Hi; [| |reflexivity]; exfalso; apply Hi; simpl; auto.
Defined.

Lemma empty_document_raises_witness :
  update_phi (fun x => x) default_config empty_document_example 1 = None
  /\ e_step_doc (fun x => x) default_config empty_document_example 1 = None
  /\ inference (fun x => x) (fun _ x => 2 / x) (fun _ => 0) default_config
       empty_document_example = None.
Proof.
  destruct (empty_document_raises (fun x => x) (fun _ x => 2 / x) (fun _ => 0)
              default_config empty_document_example 1 eq_refl) as (H1 & H2 & H3).
  split; [exact H1|]. split; [exact H2|]. apply H3. simpl. auto.
Defined.
